(** * Analysis-poems: the text-metrics engine and the corpus aggregation

    A shallow embedding of [text_utils.py] (tokenizer, lexical metrics,
    readability estimate) and of the aggregation and enrichment code of
    [main.py], with the properties the specification states about them.

    Modelling conventions:
    - a Python [str] is the list of its Unicode code points;
    - the Unicode tables of the Python runtime ([str.lower], the classes
      behind [\w] and [\s]) are not part of the repository: the text
      functions take them as a parameter [U : unicode_db], and the facts
      about them that a proof needs are collected in [unicode_laws];
      [basic_db] is the fragment of the tables for Basic Latin and the
      Cyrillic letters, used to run the functions on concrete texts;
    - a Python [float] is modelled by the exact rational it approximates and
      [round(x, n)] by rounding that rational half-to-even at [n] decimals;
    - a [dict] is a [gmap]; dictionaries that are mutated in place live in a
      store indexed by object identity. *)

From Stdlib Require Import QArith Qround Lqa.
From stdpp Require Import gmap strings list fin_maps sorting.

Local Open Scope Q_scope.
Local Open Scope nat_scope.

(** ** Python values *)

(** A code point. *)
Definition char : Type := N.

(** A Python [str]. *)
Definition str : Type := list char.

(** The code points of an ASCII literal. *)
Definition str_of (s : string) : str :=
  map Ascii.N_of_ascii (String.list_ascii_of_string s).

Definition SPACE : char := 32%N.
Definition UNDERSCORE : char := 95%N.
Definition NEWLINE : char := 10%N.
Definition FULL_STOP : char := 46%N.
Definition EXCLAMATION : char := 33%N.
Definition QUESTION : char := 63%N.

(** The scalar values the functions receive and put into dictionaries. *)
Inductive value : Type :=
  | VNone
  | VBool (b : bool)
  | VInt (z : Z)
  | VFloat (q : Q)
  | VStr (s : str).

Coercion VStr : str >-> value.

(** The number a numeric value stands for ([bool] is a subtype of [int]). *)
Definition num_of (v : value) : option Q :=
  match v with
  | VBool b => Some (inject_Z (Z.b2z b))
  | VInt z => Some (inject_Z z)
  | VFloat q => Some q
  | VNone | VStr _ => None
  end.

(** ** Floats *)

(** [int / int]: true division. *)
Definition true_div (a b : nat) : Q :=
  Z.of_nat a # Pos.of_nat b.

(** The integer nearest to [q], ties going to the even neighbour. *)
Definition round_half_even (q : Q) : Z :=
  let f := Qfloor q in
  match Qcompare (q - inject_Z f)%Q (1 # 2)%Q with
  | Lt => f
  | Gt => (f + 1)%Z
  | Eq => if Z.even f then f else (f + 1)%Z
  end.

(** [round(x, ndigits)] for a float [x] and [ndigits >= 0]. *)
Definition py_round (x : Q) (ndigits : nat) : Q :=
  let p := (10 ^ Pos.of_nat ndigits)%positive in
  Qred (round_half_even (x * (Zpos p # 1))%Q # p).

(** Comparison of floats. *)
Definition Qltb (a b : Q) : bool := negb (Qle_bool b a).

(** [a < b] on numeric values. *)
Definition value_ltb (a b : value) : bool :=
  Qltb (default 0%Q (num_of a)) (default 0%Q (num_of b)).

(** [min(a, b)] and [max(a, b)]: the first argument is kept unless the
    second is strictly smaller (resp. greater). *)
Definition min2 (a b : value) : value := if value_ltb b a then b else a.
Definition max2 (a b : value) : value := if value_ltb a b then b else a.

(** [round(v, ndigits)]: an [int] is returned as it is. *)
Definition round_value (v : value) (ndigits : nat) : value :=
  match v with
  | VFloat q => VFloat (py_round q ndigits)
  | _ => v
  end.

(** [clamp(x, lo, hi)] of the specification. *)
Definition clamp (x lo hi : Q) : Q :=
  if Qle_bool x lo then lo else if Qle_bool hi x then hi else x.

(** ** Builtins on sequences *)

(** [max(iterable, key=key)] and [min(iterable, key=key)] on a sequence
    [first :: rest]: one scan from the left, the running answer being
    replaced only by an item whose key is strictly greater (resp. smaller).
    [lt a b] decides [a < b] on keys. *)
Definition max_by {A K : Type} (lt : K → K → bool) (key : A → K)
    (first : A) (rest : list A) : A :=
  fold_left (λ best item, if lt (key best) (key item) then item else best)
            rest first.


(** [collections.Counter(words)]: a dict in insertion order, as the list of
    its items. Counting an element already present increments its count in
    place; a new element is appended. *)
Fixpoint counter_incr (elem : str) (c : list (str * nat)) : list (str * nat) :=
  match c with
  | [] => [(elem, 1)]
  | (k, v) :: c' =>
      if decide (k = elem) then (k, S v) :: c'
      else (k, v) :: counter_incr elem c'
  end.

Definition Counter (words : list str) : list (str * nat) :=
  fold_left (λ c elem, counter_incr elem c) words [].

(** [sorted(items, key=itemgetter(1), reverse=True)]: the stable sort by
    descending count, written as an insertion sort. An item is placed in
    front of the first item whose count is not greater than its own. *)
Fixpoint insert_desc (x : str * nat) (l : list (str * nat))
    : list (str * nat) :=
  match l with
  | [] => [x]
  | y :: l' => if (x.2 <? y.2)%nat then y :: insert_desc x l' else x :: l
  end.

Definition sorted_desc (items : list (str * nat)) : list (str * nat) :=
  foldr insert_desc [] items.

(** [Counter.most_common(n)] for a number [n] of items:
    [heapq.nlargest(n, items, key=itemgetter(1))], that is, the first [n]
    items of the stable descending sort. *)
Definition most_common (c : list (str * nat)) (n : nat) : list (str * nat) :=
  take n (sorted_desc c).

(** Vocabulary of the statements about [most_common]: the frequency of a
    word in a sequence, the position of its first occurrence, and the
    words in order of first occurrence. *)
Definition frequency (w : str) (words : list str) : nat :=
  length (filter (λ x, x = w) words).

Fixpoint first_index (w : str) (words : list str) : nat :=
  match words with
  | [] => 0
  | x :: rest => if decide (x = w) then 0 else S (first_index w rest)
  end.

Definition first_occurrences (words : list str) : list str :=
  rev (remove_dups (rev words)).

(** The ranking [most_common] sorts by: a higher count first, and among
    equal counts the word met first. *)
Definition ranks_before (words : list str) (a b : str * nat) : Prop :=
  b.2 < a.2 ∨ (a.2 = b.2 ∧ first_index a.1 words < first_index b.1 words).

(** [text.split(sep)] for a one-character separator: every occurrence
    separates, empty pieces are kept. *)
Fixpoint split_sep (sep : char) (cur : str) (s : str) : list str :=
  match s with
  | [] => [rev cur]
  | c :: rest =>
      if (c =? sep)%N then rev cur :: split_sep sep [] rest
      else split_sep sep (c :: cur) rest
  end.

Definition is_terminator (c : char) : bool :=
  (c =? FULL_STOP)%N || (c =? EXCLAMATION)%N || (c =? QUESTION)%N.

(** [re.split(r'[.!?]+', text)]: a maximal run of terminators separates
    two pieces; the pieces before the first and after the last run are
    kept even when empty. *)
Fixpoint re_split_terminators (in_run : bool) (cur : str) (s : str)
    : list str :=
  match s with
  | [] => [rev cur]
  | c :: rest =>
      if is_terminator c
      then (if in_run then re_split_terminators true [] rest
            else rev cur :: re_split_terminators true [] rest)
      else re_split_terminators false (c :: cur) rest
  end.

(** ** The Unicode tables of the runtime *)

Record unicode_db : Type := UnicodeDb {
  (** [str.isalnum] on one character: letters and numeric characters *)
  isalnum : char → bool;
  (** the whitespace test shared by [\s], [str.strip()] and [str.split()] *)
  isspace : char → bool;
  (** [str.lower] *)
  lower : str → str
}.

(** [\w] of [re] on [str] patterns: alphanumeric characters and the
    underscore. *)
Definition is_word (U : unicode_db) (c : char) : bool :=
  isalnum U c || (c =? UNDERSCORE)%N.

(** What the proofs assume about the tables. A character is
    lowercase-stable when [str.lower] leaves the one-character string
    unchanged. *)
Record unicode_laws (U : unicode_db) : Prop := UnicodeLaws {
  (** U+0020 is whitespace *)
  isspace_SPACE : isspace U SPACE = true;
  (** the sentence terminators are punctuation *)
  terminator_not_alnum : ∀ c,
    c ∈ [FULL_STOP; EXCLAMATION; QUESTION] → isalnum U c = false;
  (** [str.lower] produces lowercase-stable characters only *)
  lower_stable : ∀ s c, c ∈ lower U s → lower U [c] = [c];
  (** a string of lowercase-stable characters is its own lowercase *)
  lower_fixed : ∀ s, (∀ c, c ∈ s → lower U [c] = [c]) → lower U s = s;
  (** whitespace and the sentence terminators have no case *)
  lower_caseless : ∀ c,
    isspace U c = true ∨ c ∈ [FULL_STOP; EXCLAMATION; QUESTION] →
    lower U [c] = [c]
}.

(** *** The Basic Latin and Cyrillic fragment of the tables

    [basic_db] agrees with CPython on texts over U+0000..U+007F and the
    Cyrillic letters U+0400..U+045F. Code points outside these ranges are
    left unclassified (neither alphanumeric nor whitespace, without case):
    the concrete texts below do not use them. *)

Definition in_range (lo hi c : N) : bool := ((lo <=? c) && (c <=? hi))%N.

Definition basic_isspace (c : char) : bool :=
  in_range 9 13 c || in_range 28 32 c.

Definition basic_isalnum (c : char) : bool :=
  in_range 48 57 c || in_range 65 90 c || in_range 97 122 c
  || in_range 1024 1119 c.

Definition basic_lower_char (c : char) : char :=
  if in_range 65 90 c then (c + 32)%N          (* A-Z *)
  else if in_range 1040 1071 c then (c + 32)%N (* U+0410-U+042F *)
  else if in_range 1024 1039 c then (c + 80)%N (* U+0400-U+040F *)
  else c.

Definition basic_db : unicode_db :=
  {| isalnum := basic_isalnum;
     isspace := basic_isspace;
     lower := map basic_lower_char |}.

(** ** text_utils.py *)

Section TextUtils.

Context (U : unicode_db).

(** [re.sub(r'[^\w\s]', ' ', text)] *)
Definition sub_non_word (text : str) : str :=
  map (λ c, if is_word U c || isspace U c then c else SPACE) text.

(** [re.sub(r'\s+', ' ', text)]: [in_run] tells that the previous
    character belonged to the run of whitespace being replaced. *)
Fixpoint sub_space_runs (in_run : bool) (text : str) : str :=
  match text with
  | [] => []
  | c :: rest =>
      if isspace U c
      then (if in_run then sub_space_runs true rest
            else SPACE :: sub_space_runs true rest)
      else c :: sub_space_runs false rest
  end.

(** [str.lstrip()], [str.rstrip()], [str.strip()] *)
Fixpoint lstrip (s : str) : str :=
  match s with
  | [] => []
  | c :: rest => if isspace U c then lstrip rest else s
  end.

Definition rstrip (s : str) : str := rev (lstrip (rev s)).

Definition strip (s : str) : str := rstrip (lstrip s).

(** [str.split()]: the maximal runs of non-whitespace characters; [cur]
    holds the run being read, last character first. *)
Fixpoint split_from (cur : str) (s : str) : list str :=
  match s with
  | [] => match cur with [] => [] | _ => [rev cur] end
  | c :: rest =>
      if isspace U c
      then match cur with
           | [] => split_from [] rest
           | _ => rev cur :: split_from [] rest
           end
      else split_from (c :: cur) rest
  end.

Definition split (s : str) : list str := split_from [] s.

Definition preprocess_text (text : value) : list str :=
  match text with
  | VStr ((_ :: _) as s) =>
      let text := lower U s in
      let text := sub_non_word text in
      let text := sub_space_runs false text in
      split (strip text)
  | _ => []  (* not text or not isinstance(text, str) *)
  end.

Definition count_words (text : str) : nat :=
  let words := preprocess_text text in
  length words.

Definition count_unique_words (text : str) : nat :=
  let words := preprocess_text text in
  let unique_words : gset str := list_to_set words in
  size unique_words.

Definition calculate_ttr (text : str) : Q :=
  let total_words := count_words text in
  let unique_words := count_unique_words text in
  if (total_words =? 0)%nat then 0%Q
  else py_round (true_div unique_words total_words) 4.

Definition count_lines (text : str) : nat :=
  match text with
  | [] => 0
  | _ =>
      let lines :=
        map strip
            (filter (λ line, strip line ≠ []) (split_sep NEWLINE [] text)) in
      length lines
  end.

(** [n], the number of words to return, is a natural number. *)
Definition get_most_common_words (text : str) (n : nat) : list (str * nat) :=
  let words := preprocess_text text in
  match words with
  | [] => []
  | _ =>
      let word_counts := Counter words in
      most_common word_counts n
  end.

Definition average_word_length (text : str) : Q :=
  let words := preprocess_text text in
  match words with
  | [] => 0%Q
  | _ =>
      let total_length := sum_list (map length words) in
      py_round (true_div total_length (length words)) 2
  end.

Definition find_longest_word (text : str) : str :=
  let words := preprocess_text text in
  match words with
  | [] => []
  | first :: rest => max_by Nat.ltb length first rest
  end.

Definition calculate_lexical_density (text : str) : Q :=
  let words := preprocess_text text in
  match words with
  | [] => 0%Q
  | _ =>
      let lexical_words := filter (λ word, 3 < length word) words in
      py_round (true_div (length lexical_words) (length words)) 4
  end.

Definition calculate_sentence_count (text : str) : nat :=
  match text with
  | [] => 0
  | _ =>
      let sentences := re_split_terminators false [] text in
      let sentences := map strip (filter (λ s, strip s ≠ []) sentences) in
      length sentences
  end.

Definition analyze_text_readability (text : str) : gmap string value :=
  match text with
  | [] => {[ "readability_score" := VFloat 0 ]}
  | _ =>
      let words := preprocess_text text in
      let sentences := calculate_sentence_count text in
      if bool_decide (words = []) || (sentences =? 0)%nat
      then {[ "readability_score" := VFloat 0 ]}
      else
        let words_per_sentence := true_div (length words) sentences in
        let readability_score :=
          max2 (VInt 0)
               (min2 (VInt 100)
                     (VFloat (100 - (words_per_sentence - 10) * 2)%Q)) in
        <[ "readability_score" := round_value readability_score 2 ]>
        (<[ "words_per_sentence" := VFloat (py_round words_per_sentence 2) ]>
        {[ "sentences" := VInt (Z.of_nat sentences) ]})
  end.

(** [sep.join(words)] *)
Fixpoint join (sep : str) (words : list str) : str :=
  match words with
  | [] => []
  | [w] => w
  | w :: rest => w ++ sep ++ join sep rest
  end.

(** The tokenizer as the specification words it: lowercase; replace every
    character that is not a letter, digit or whitespace by one space;
    collapse whitespace; trim; split. Empty and non-string input give the
    empty sequence. *)
Definition spec_tokenize (text : value) : list str :=
  match text with
  | VStr ((_ :: _) as s) =>
      let lowered := lower U s in
      let replaced :=
        map (λ c, if isalnum U c || isspace U c then c else SPACE) lowered in
      split (strip (sub_space_runs false replaced))
  | _ => []
  end.

(** Vocabulary of the statements: strings of whitespace, strings without
    whitespace, and tokens (non-empty strings without whitespace). *)
Definition all_space (s : str) : Prop := Forall (λ c, isspace U c = true) s.
Definition no_space (s : str) : Prop := Forall (λ c, isspace U c = false) s.
Definition is_token (w : str) : Prop := w ≠ [] ∧ no_space w.

End TextUtils.


(** ** main.py *)

(** A metric record: a [dict] from field names to values. Field names are
    only compared for equality, they are kept as byte strings. *)
Abbreviation record := (gmap string value).

(** [d.get(key, default)] *)
Definition dict_get (d : record) (key : string) (default : value) : value :=
  match d !! key with
  | Some v => v
  | None => default
  end.

(** [d.update(other)]: the entries of [other] replace those of [d]. *)
Definition dict_update (d other : record) : record := other ∪ d.

(** *** Enrichment *)

(** The records are mutated in place: the list holds references to [dict]
    objects of the store. The rows of the metadata are only read. *)
Definition loc : Type := positive.

Abbreviation store := (gmap loc record).

(** The body of the loop of [enrich_results_with_metadata]. *)
Definition enrich_result (metadata : gmap str record) (heap : store)
    (result : loc) : store :=
  match heap !! result with
  | Some fields =>
      match dict_get fields "filename" (VStr []) with
      | VStr filename =>
          match metadata !! filename with
          | Some row => <[result := dict_update fields row]> heap
          | None => heap
          end
      | _ => heap  (* a key of another type is in no metadata *)
      end
  | None => heap
  end.

Definition enrich_results_with_metadata (results : list loc)
    (metadata : gmap str record) (heap : store) : list loc * store :=
  if decide (metadata = ∅) then (results, heap)
  else (results, foldl (enrich_result metadata) heap results).

(** The row the metadata holds for a record, if any. *)
Definition metadata_row (metadata : gmap str record) (fields : record)
    : option record :=
  match dict_get fields "filename" (VStr []) with
  | VStr filename => metadata !! filename
  | _ => None
  end.

(** *** The aggregation of [generate_report] *)

(** [r.get(key, 0)] read as a number; [None] stands for the [TypeError]
    arithmetic raises on a value that is not a number. *)
Definition get_num (r : record) (key : string) : option Q :=
  num_of (dict_get r key (VInt 0)).






(** Vocabulary of the statements about the aggregation. *)


(** The four fields the aggregation adds up are numbers where present. *)
Definition numeric_record (r : record) : Prop :=
  ∀ key, key ∈ ["word_count"; "unique_words"; "ttr"; "avg_word_length"] →
         is_Some (get_num r key).






(** A store with two records and a metadata row for the first of them,
    which also carries a [word_count] column. *)
Definition example_heap : store :=
  {[ 1%positive := {[ "filename" := VStr (str_of "a.txt");
                      "word_count" := VInt 4 ]};
     2%positive := {[ "filename" := VStr (str_of "c.txt");
                      "word_count" := VInt 7 ]} ]}.

Definition example_metadata : gmap str record :=
  {[ str_of "a.txt" := {[ "filename" := VStr (str_of "a.txt");
                          "title" := VStr (str_of "Ode");
                          "word_count" := VStr (str_of "four") ]} ]}.



(** ** More builtins *)

(** [a <= b] on [str]: lexicographic by code point. *)
Fixpoint str_leb (a b : str) : bool :=
  match a, b with
  | [], _ => true
  | _ :: _, [] => false
  | x :: a', y :: b' =>
      if (x <? y)%N then true
      else if (x =? y)%N then str_leb a' b'
      else false
  end.

(** The same order on field names: the order of the UTF-8 bytes is the
    order of the code points. *)
Definition key_leb (a b : string) : bool := str_leb (str_of a) (str_of b).

(** [sorted(l)] and [l.sort()]: the stable ascending sort, written as an
    insertion sort. An item is placed in front of the first item that is
    not smaller than it. *)
Fixpoint insert_sorted {A} (leb : A → A → bool) (x : A) (l : list A)
    : list A :=
  match l with
  | [] => [x]
  | y :: l' => if leb x y then x :: l else y :: insert_sorted leb x l'
  end.

Definition py_sorted {A} (leb : A → A → bool) (l : list A) : list A :=
  foldr (insert_sorted leb) [] l.

(** [str(n)] for a count. *)
Fixpoint uint_digits (d : Decimal.uint) : str :=
  match d with
  | Decimal.Nil => []
  | Decimal.D0 d => 48%N :: uint_digits d
  | Decimal.D1 d => 49%N :: uint_digits d
  | Decimal.D2 d => 50%N :: uint_digits d
  | Decimal.D3 d => 51%N :: uint_digits d
  | Decimal.D4 d => 52%N :: uint_digits d
  | Decimal.D5 d => 53%N :: uint_digits d
  | Decimal.D6 d => 54%N :: uint_digits d
  | Decimal.D7 d => 55%N :: uint_digits d
  | Decimal.D8 d => 56%N :: uint_digits d
  | Decimal.D9 d => 57%N :: uint_digits d
  end.

Definition format_nat (n : nat) : str := uint_digits (Nat.to_uint n).

(** ** file_utils.py *)

(** A row of [csv.DictReader]: the cell under each column name, [None]
    where the line is shorter than the header. Lines with more cells than
    the header are not modelled. *)
Abbreviation csv_row := (gmap string (option str)).

(** The row as the [dict] the program stores. *)
Definition row_record (row : csv_row) : record :=
  (λ cell, match cell with Some s => VStr s | None => VNone end) <$> row.

(** What the functions observe of the file system. A field of option type
    is [None] when the operation raises. *)
Record filesystem : Type := FileSystem {
  fs_exists : str → bool;                       (* os.path.exists *)
  fs_isfile : str → bool;                       (* os.path.isfile *)
  fs_isdir : str → bool;                        (* os.path.isdir *)
  fs_listdir : str → option (list str);         (* os.listdir *)
  fs_read : str → option str;                   (* open(..., 'r').read() *)
  fs_read_csv : str → option (list csv_row);    (* the rows of DictReader *)
  fs_getsize : str → Z;                         (* os.path.getsize *)
  fs_join : str → str → str;                    (* os.path.join *)
  fs_basename : str → str                       (* os.path.basename *)
}.

Section FileUtils.

Context (fs : filesystem).

Definition read_text_file (filepath : str) : option str :=
  if negb (fs_exists fs filepath) then None
  else if negb (fs_isfile fs filepath) then None
  else fs_read fs filepath.

Definition read_csv_file (filepath : str) : option (list csv_row) :=
  if negb (fs_exists fs filepath) then None
  else if negb (fs_isfile fs filepath) then None
  else fs_read_csv fs filepath.

(** [item.endswith(extension)] *)
Definition endswith (item extension : str) : bool :=
  bool_decide (extension `suffix_of` item).

Definition get_files_in_folder (folder_path : str) (extension : option str)
    : option (list str) :=
  if negb (fs_exists fs folder_path) then None
  else if negb (fs_isdir fs folder_path) then None
  else
    match fs_listdir fs folder_path with
    | None => None
    | Some items =>
        let files :=
          foldl (λ files item,
                   let item_path := fs_join fs folder_path item in
                   match extension with
                   | Some ((_ :: _) as extension) =>
                       if fs_isfile fs item_path && endswith item extension
                       then files ++ [item_path] else files
                   | _ =>
                       if fs_isfile fs item_path
                       then files ++ [item_path] else files
                   end)
                [] items in
        Some (py_sorted str_leb files)
    end.

End FileUtils.

(** [csv.DictWriter.writerow]: a key outside the field names raises
    [ValueError]; a field the row lacks is written as the empty string. *)
Definition dict_to_list (fieldnames : list string) (rowdict : record)
    : option (list value) :=
  if decide (dom rowdict ⊆ list_to_set fieldnames)
  then Some (map (λ key, dict_get rowdict key (VStr [])) fieldnames)
  else None.

(** The table a CSV file holds: the header and the rows of cells. The
    formatting of the cells as text is not modelled. *)
Record csv_file : Type := CsvFile {
  csv_header : list string;
  csv_rows : list (list value)
}.

(** The rows [write_csv_file] writes before the first row that raises, and
    whether every row was written. *)
Fixpoint write_rows (headers : list string) (data : list record)
    : bool * list (list value) :=
  match data with
  | [] => (true, [])
  | row :: data' =>
      match dict_to_list headers row with
      | Some cells =>
          let '(ok, rows) := write_rows headers data' in (ok, cells :: rows)
      | None => (false, [])
      end
  end.

(** [write_csv_file]: [can_open] tells whether creating the folder and
    opening the file succeed. The result is the returned flag and the file
    left on disk, if one was opened. *)
Definition write_csv_file (can_open : bool) (data : list record)
    (headers : list string) : bool * option csv_file :=
  if can_open then
    let '(ok, rows) := write_rows headers data in
    (ok, Some {| csv_header := headers; csv_rows := rows |})
  else (false, None).

(** ** main.py, continued *)

Section Analysis.

Context (fs : filesystem) (U : unicode_db).

(** [f"{word}({count})"] *)
Definition format_top_word (item : str * nat) : str :=
  item.1 ++ str_of "(" ++ format_nat item.2 ++ str_of ")".

Definition analyze_single_text (filepath : str) (filename : option str)
    : record :=
  let filename :=
    match filename with
    | None => fs_basename fs filepath
    | Some filename => filename
    end in
  match read_text_file fs filepath with
  | None => ∅
  | Some content =>
      let results : record :=
        {[ "filename" := VStr filename;
           "word_count" := VInt (Z.of_nat (count_words U content));
           "unique_words" := VInt (Z.of_nat (count_unique_words U content));
           "ttr" := VFloat (calculate_ttr U content);
           "line_count" := VInt (Z.of_nat (count_lines U content));
           "avg_word_length" := VFloat (average_word_length U content);
           "longest_word" := VStr (find_longest_word U content);
           "lexical_density" := VFloat (calculate_lexical_density U content);
           "file_size" :=
             VInt (if fs_exists fs filepath then fs_getsize fs filepath
                   else 0%Z) ]} in
      let readability := analyze_text_readability U content in
      let results := dict_update results readability in
      let most_common := get_most_common_words U content 3 in
      <[ "top_words" :=
           VStr (join (str_of ", ") (map format_top_word most_common)) ]>
        results
  end.

Definition analyze_corpus (corpus_folder : str) : list record :=
  match get_files_in_folder fs corpus_folder (Some (str_of ".txt")) with
  | None | Some [] => []
  | Some text_files =>
      foldl (λ results filepath,
               let filename := fs_basename fs filepath in
               let result := analyze_single_text filepath (Some filename) in
               if decide (result = ∅) then results else results ++ [result])
            [] (py_sorted str_leb text_files)
  end.

Definition load_metadata (metadata_path : str) : gmap str record :=
  if fs_exists fs metadata_path then
    match read_csv_file fs metadata_path with
    | Some data =>
        foldl (λ metadata item,
                 match item !! "filename" with
                 | Some (Some ((_ :: _) as filename)) =>
                     <[filename := row_record item]> metadata
                 | _ => metadata
                 end)
              ∅ data
    | None => ∅
    end
  else ∅.

End Analysis.

Definition basic_headers : list string :=
  ["filename"; "word_count"; "unique_words"; "ttr"].

(** The header [save_statistics_csv] derives from the keys of the first
    record, taken in the order [sample_keys] lists them. *)
Definition statistics_headers (sample_keys : list string) : list string :=
  let additional_headers :=
    foldl (λ additional_headers key,
             if decide ((key ∉ basic_headers) ∧ (key ∉ additional_headers))
             then additional_headers ++ [key] else additional_headers)
          [] sample_keys in
  let additional_headers := py_sorted key_leb additional_headers in
  basic_headers ++ additional_headers.

Definition save_statistics_csv (can_open : bool) (results : list record)
    : bool * option csv_file :=
  match results with
  | [] => (false, None)
  | first :: _ =>
      let sample_keys := (map_to_list first).*1 in
      let headers := statistics_headers sample_keys in
      write_csv_file can_open results headers
  end.

(** Vocabulary: the rows of a CSV file that name [filename]. *)
Definition rows_of (filename : str) (data : list csv_row) : list csv_row :=
  filter (λ item, item !! "filename" = Some (Some filename)) data.

(** Vocabulary: every row of the metadata names its own key. *)
Definition consistent_metadata (metadata : gmap str record) : Prop :=
  ∀ filename row, metadata !! filename = Some row →
                  row !! "filename" = Some (VStr filename).

(** What enrichment makes of a record. *)
Definition enriched (metadata : gmap str record) (fields : record) : record :=
  match metadata_row metadata fields with
  | Some row => dict_update fields row
  | None => fields
  end.

(** The test of the early exit of [analyze_text_readability]. *)
Definition early_exit (U : unicode_db) (content : str) : bool :=
  bool_decide (preprocess_text U content = [])
  || (calculate_sentence_count U content =? 0)%nat.

(** The keys of the record of a readable file, besides those of the
    readability estimate. *)
Definition metric_keys : list string :=
  ["filename"; "word_count"; "unique_words"; "ttr"; "line_count";
   "avg_word_length"; "longest_word"; "lexical_density"; "file_size";
   "readability_score"; "top_words"].
(** * Properties *)

(** ** The fragment of the tables satisfies the laws *)

Ltac case_ranges :=
  repeat (match goal with
          | |- context [(?a <=? ?b)%N] => destruct (N.leb_spec a b)
          | |- context [(?a =? ?b)%N] => destruct (N.eqb_spec a b)
          end; simpl).

Lemma basic_lower_char_spec (c : char) :
  (basic_lower_char c = c
   ∧ ¬ (65 ≤ c ≤ 90)%N ∧ ¬ (1024 ≤ c ≤ 1071)%N)
  ∨ (basic_lower_char c = (c + 32)%N
     ∧ ((65 ≤ c ≤ 90)%N ∨ (1040 ≤ c ≤ 1071)%N))
  ∨ (basic_lower_char c = (c + 80)%N ∧ (1024 ≤ c ≤ 1039)%N).
Proof. unfold basic_lower_char, in_range. case_ranges; lia. Qed.

Lemma basic_lower_char_idem (c : char) :
  basic_lower_char (basic_lower_char c) = basic_lower_char c.
Proof.
  destruct (basic_lower_char_spec c) as [(E & _)|[(E & Hc)|(E & Hc)]];
    rewrite !E; [done| |].
  - destruct (basic_lower_char_spec (c + 32)%N)
      as [(E' & _)|[(_ & ?)|(_ & ?)]]; [done|lia|lia].
  - destruct (basic_lower_char_spec (c + 80)%N)
      as [(E' & _)|[(_ & ?)|(_ & ?)]]; [done|lia|lia].
Qed.

Lemma basic_lower_char_caseless (c : char) :
  basic_isspace c = true ∨ is_terminator c = true →
  basic_lower_char c = c.
Proof.
  unfold basic_isspace, is_terminator, basic_lower_char, in_range,
    FULL_STOP, EXCLAMATION, QUESTION.
  case_ranges; intros [?|?]; try discriminate; lia.
Qed.

Lemma elem_of_terminators (c : char) :
  c ∈ [FULL_STOP; EXCLAMATION; QUESTION] ↔ is_terminator c = true.
Proof.
  unfold is_terminator.
  rewrite !elem_of_cons, elem_of_nil, !orb_true_iff, !N.eqb_eq. tauto.
Qed.

Lemma basic_db_laws : unicode_laws basic_db.
Proof.
  split; simpl.
  - reflexivity.
  - intros c Hc. apply elem_of_terminators in Hc. revert Hc.
    unfold is_terminator, basic_isalnum, in_range,
      FULL_STOP, EXCLAMATION, QUESTION.
    case_ranges; intros; try discriminate; try reflexivity; lia.
  - intros s c Hc. apply list_elem_of_fmap in Hc as (c' & -> & _).
    by rewrite basic_lower_char_idem.
  - intros s Hs. induction s as [|c s IH]; [done|]. simpl. f_equal.
    + specialize (Hs c (list_elem_of_here _ _)). by injection Hs.
    + apply IH. intros c' Hc'. apply Hs. by right.
  - intros c Hc. f_equal. apply basic_lower_char_caseless.
    by rewrite <- elem_of_terminators.
Qed.

(** ** The tokenizer *)

Section TokenizerFacts.

Context (U : unicode_db).

(** Anything but a non-empty [str] is tokenized to the empty sequence. *)
Lemma preprocess_text_not_str (text : value) :
  (∀ s, text ≠ VStr s) ∨ text = VStr [] → preprocess_text U text = [].
Proof.
  intros [H| ->]; [|done].
  destruct text as [| | | |s]; try done. by destruct (H s).
Qed.

(** The code and the specification's wording agree on every text whose
    lowercase form holds no underscore. *)
Lemma preprocess_text_spec_tokenize (s : str) :
  UNDERSCORE ∉ lower U s →
  preprocess_text U s = spec_tokenize U s.
Proof.
  intros Hs. destruct s as [|c s]; [done|]. simpl.
  do 3 f_equal. unfold sub_non_word.
  apply map_ext_in. intros a Ha%list_elem_of_In. unfold is_word.
  destruct (N.eqb_spec a UNDERSCORE) as [->|_]; [done|].
  by rewrite orb_false_r.
Qed.

End TokenizerFacts.

(** C1 (the code departs from the claim): the tokenizer keeps an underscore,
    which is neither a letter, a digit nor whitespace, inside a token.
    On ["a_b"] the code returns the single token ["a_b"], where the
    tokenization the claim words returns ["a"; "b"]. *)
Theorem preprocess_text_keeps_underscore :
  preprocess_text basic_db (str_of "a_b") = [str_of "a_b"]
  ∧ spec_tokenize basic_db (str_of "a_b") = [str_of "a"; str_of "b"]
  ∧ isalnum basic_db UNDERSCORE = false
  ∧ isspace basic_db UNDERSCORE = false.
Proof. vm_compute. repeat split; reflexivity. Qed.

(** Cyrillic text is lowercased and split like Latin text:
    ["Привет, МИР!"] gives ["привет"; "мир"]. *)
Example tokens_cyrillic :
  preprocess_text basic_db
    (VStr [1055; 1088; 1080; 1074; 1077; 1090; 44; 32;
           1052; 1048; 1056; 33]%N)
  = [[1087; 1088; 1080; 1074; 1077; 1090]; [1084; 1080; 1088]]%N.
Proof. vm_compute. reflexivity. Qed.

(** C4: the scenario ["Hello hello WORLD! Hello?"]: its tokens and metrics;
    ["hello"] and ["world"] are equally long and the first one is the
    longest word. *)
Theorem hello_scenario :
  let text := str_of "Hello hello WORLD! Hello?" in
  preprocess_text basic_db text
    = [str_of "hello"; str_of "hello"; str_of "world"; str_of "hello"]
  ∧ count_words basic_db text = 4
  ∧ count_unique_words basic_db text = 2
  ∧ calculate_ttr basic_db text = (1 # 2)%Q
  ∧ find_longest_word basic_db text = str_of "hello"
  ∧ length (str_of "world") = length (find_longest_word basic_db text)
  ∧ calculate_lexical_density basic_db text = 1%Q
  ∧ count_lines basic_db text = 1
  ∧ calculate_sentence_count basic_db text = 2.
Proof. vm_compute. repeat split; reflexivity. Qed.

(** ** Rounding *)

Lemma round_half_even_bounds (q : Q) (n : Z) :
  (0 <= q)%Q → (q <= inject_Z n)%Q → (0 ≤ round_half_even q ≤ n)%Z.
Proof.
  intros H0 Hn. unfold round_half_even.
  pose proof (Qfloor_le q) as Hfl.
  assert (0 ≤ Qfloor q)%Z as Hf0.
  { change 0%Z with (Qfloor 0). by apply Qfloor_resp_le. }
  assert (Qfloor q ≤ n)%Z as Hfn.
  { rewrite <- (Qfloor_Z n). by apply Qfloor_resp_le. }
  assert ((1 # 2 <= q - inject_Z (Qfloor q))%Q → (Qfloor q + 1 ≤ n)%Z) as Hup.
  { intros Hhalf. destruct (Z.eq_dec (Qfloor q) n) as [E|]; [|lia].
    exfalso. rewrite E in Hhalf.
    assert (q - inject_Z n <= 0)%Q as Hle.
    { apply (Qplus_le_l _ _ (inject_Z n)). ring_simplify. exact Hn. }
    assert ((1 # 2) <= 0)%Q as Habs by (eapply Qle_trans; eauto).
    by apply Habs. }
  destruct (Qcompare_spec (q - inject_Z (Qfloor q)) (1 # 2)) as [E|L|G].
  - destruct (Z.even (Qfloor q)); [lia|].
    split; [lia|]. apply Hup. rewrite E. apply Qle_refl.
  - lia.
  - split; [lia|]. apply Hup. by apply Qlt_le_weak.
Qed.

Lemma py_round_bounds (x : Q) (ndigits : nat) (n : Z) :
  (0 <= x)%Q → (x <= inject_Z n)%Q →
  (0 <= py_round x ndigits)%Q ∧ (py_round x ndigits <= inject_Z n)%Q.
Proof.
  intros H0 H1. unfold py_round.
  set (p := (10 ^ Pos.of_nat ndigits)%positive).
  destruct (round_half_even_bounds (x * (Z.pos p # 1)) (n * Z.pos p))
    as [Hlo Hhi].
  - apply Qmult_le_0_compat; [done|]. by unfold Qle.
  - apply Qle_trans with (inject_Z n * (Z.pos p # 1))%Q.
    + apply Qmult_le_compat_r; [done|]. by unfold Qle.
    + unfold Qle. simpl. lia.
  - rewrite Qred_correct. unfold Qle. simpl. lia.
Qed.

Lemma py_round_unit (x : Q) (ndigits : nat) :
  (0 <= x)%Q → (x <= 1)%Q →
  (0 <= py_round x ndigits)%Q ∧ (py_round x ndigits <= 1)%Q.
Proof. apply (py_round_bounds x ndigits 1). Qed.

Lemma true_div_unit (a b : nat) :
  a ≤ b → 0 < b → (0 <= true_div a b)%Q ∧ (true_div a b <= 1)%Q.
Proof.
  intros Hab Hb. unfold true_div, Qle. simpl. lia.
Qed.

(** ** Counting words *)

Lemma size_list_to_set_le (l : list str) :
  size (list_to_set l : gset str) ≤ length l.
Proof.
  induction l as [|x l IH].
  - by rewrite list_to_set_nil, size_empty.
  - rewrite list_to_set_cons, length_cons.
    rewrite size_union_alt.
    rewrite size_singleton.
    assert (size (list_to_set l ∖ {[x]} : gset str)
            ≤ size (list_to_set l : gset str)) as Hsub.
    { apply subseteq_size. by apply subseteq_difference_l. }
    lia.
Qed.

Lemma size_list_to_set_0 (l : list str) :
  size (list_to_set l : gset str) = 0 ↔ l = [].
Proof.
  split; [|by intros ->].
  intros H%size_empty_inv. destruct l as [|x l]; [done|].
  exfalso. apply (not_elem_of_empty (C:=gset str) x). rewrite <- H.
  apply elem_of_list_to_set. by left.
Qed.

Section WordCounts.

Context (U : unicode_db).

(** C6: there are at most as many distinct words as words, and each of the
    two counts is zero exactly when the tokenization is empty. *)
Theorem count_unique_words_le_count_words (text : str) :
  count_unique_words U text ≤ count_words U text
  ∧ (count_unique_words U text = 0 ↔ preprocess_text U text = [])
  ∧ (count_words U text = 0 ↔ preprocess_text U text = []).
Proof.
  unfold count_unique_words, count_words. split; [|split].
  - apply size_list_to_set_le.
  - apply size_list_to_set_0.
  - apply length_zero_iff_nil.
Qed.

Lemma count_unique_words_pos (text : str) :
  0 < count_words U text → 0 < count_unique_words U text.
Proof.
  intros H. destruct (count_unique_words U text) eqn:E; [|lia].
  unfold count_unique_words in E. apply size_list_to_set_0 in E.
  unfold count_words in H. rewrite E in H. simpl in H. lia.
Qed.

(** C2 (amended): both ratios lie in [[0, 1]] and are [0.0] when the text
    has no words. *)
Theorem ttr_and_lexical_density_bounds (text : str) :
  ((0 <= calculate_ttr U text)%Q ∧ (calculate_ttr U text <= 1)%Q)
  ∧ ((0 <= calculate_lexical_density U text)%Q
     ∧ (calculate_lexical_density U text <= 1)%Q)
  ∧ (count_words U text = 0 →
     calculate_ttr U text = 0%Q ∧ calculate_lexical_density U text = 0%Q).
Proof.
  split; [|split].
  - unfold calculate_ttr.
    destruct (Nat.eqb_spec (count_words U text) 0) as [|Hne]; [done|].
    destruct (true_div_unit (count_unique_words U text) (count_words U text))
      as [? ?]; [apply size_list_to_set_le|lia|].
    by apply py_round_unit.
  - unfold calculate_lexical_density.
    destruct (preprocess_text U text) as [|w ws] eqn:E; [done|].
    destruct (true_div_unit
                (length (filter (λ word, 3 < length word) (w :: ws)))
                (length (w :: ws)))
      as [? ?]; [apply length_filter|simpl; lia|].
    by apply py_round_unit.
  - unfold calculate_ttr, calculate_lexical_density, count_words.
    intros H. rewrite H. apply length_zero_iff_nil in H. by rewrite H.
Qed.

End WordCounts.

(** C2 (counterexample): the text ["a"] has one word and lexical density
    [0.0], so a zero ratio does not tell that the text has no words. *)
Lemma lexical_density_zero_with_words :
  let text := str_of "a" in
  count_words basic_db text = 1
  ∧ calculate_lexical_density basic_db text = 0%Q
  ∧ ¬ ((calculate_lexical_density basic_db text == 0)%Q
       ↔ count_words basic_db text = 0).
Proof.
  vm_compute. split; [reflexivity|]. split; [reflexivity|].
  intros [H _]. by specialize (H eq_refl).
Qed.

(** The type-token ratio rounds to [0.0] as well once a text is repetitive
    enough: one distinct word among 20001. *)
Lemma ttr_rounds_to_zero : py_round (1 # 20001) 4 = 0%Q.
Proof. vm_compute. reflexivity. Qed.

(** ** Whitespace, stripping and splitting *)

Section Splitting.

Context (U : unicode_db).

Lemma elem_of_rev {A} (l : list A) (x : A) : x ∈ rev l ↔ x ∈ l.
Proof. rewrite !list_elem_of_In. symmetry. apply in_rev. Qed.

Lemma lstrip_decompose (s : str) :
  ∃ sp, s = sp ++ lstrip U s ∧ all_space U sp.
Proof.
  induction s as [|c s (sp & E & Hsp)]; simpl.
  - exists []. split; [done|constructor].
  - destruct (isspace U c) eqn:Hc.
    + exists (c :: sp). split; [by rewrite E at 1|by constructor].
    + exists []. split; [done|constructor].
Qed.

Lemma rstrip_decompose (s : str) :
  ∃ sp, s = rstrip U s ++ sp ∧ all_space U sp.
Proof.
  destruct (lstrip_decompose (rev s)) as (sp & E & Hsp).
  exists (rev sp). split.
  - unfold rstrip. rewrite <- rev_app_distr, <- E. by rewrite rev_involutive.
  - unfold all_space in *. rewrite Forall_forall in *.
    intros c Hc. apply Hsp. by rewrite elem_of_rev in Hc.
Qed.

Lemma elem_of_lstrip (s : str) (c : char) :
  c ∈ s → isspace U c = false → c ∈ lstrip U s.
Proof.
  induction s as [|a s IH]; [done|]. simpl.
  intros [->|Hc]%elem_of_cons Hns.
  - rewrite Hns. by left.
  - destruct (isspace U a); [by apply IH|by right].
Qed.

Lemma elem_of_strip (s : str) (c : char) :
  c ∈ s → isspace U c = false → c ∈ strip U s.
Proof.
  intros Hc Hns. unfold strip, rstrip.
  rewrite elem_of_rev. apply elem_of_lstrip; [|done].
  rewrite elem_of_rev. by apply elem_of_lstrip.
Qed.

Lemma split_from_all_space (cur sp : str) :
  all_space U sp → split_from U cur sp = split_from U cur [].
Proof.
  intros Hsp. revert cur. induction Hsp as [|c sp Hc _ IH]; [done|].
  intros cur. simpl. rewrite Hc.
  destruct cur; rewrite IH; [done|]. simpl. reflexivity.
Qed.

Lemma split_all_space (s : str) : all_space U s → split U s = [].
Proof. intros Hs. unfold split. by rewrite split_from_all_space. Qed.

Lemma split_from_app_space (cur s sp : str) :
  all_space U sp → split_from U cur (s ++ sp) = split_from U cur s.
Proof.
  intros Hsp. revert cur. induction s as [|c s IH]; intros cur; simpl.
  - by apply split_from_all_space.
  - destruct (isspace U c); [destruct cur|]; by rewrite IH.
Qed.

Lemma split_space_app (sp s : str) :
  all_space U sp → split U (sp ++ s) = split U s.
Proof.
  unfold split. induction 1 as [|c sp Hc _ IH]; [done|].
  simpl. by rewrite Hc.
Qed.

(** Stripping does not change what [split] returns. *)
Lemma split_strip (s : str) : split U (strip U s) = split U s.
Proof.
  unfold strip.
  destruct (lstrip_decompose s) as (sp & E & Hsp).
  destruct (rstrip_decompose (lstrip U s)) as (sp' & E' & Hsp').
  rewrite E at 2. rewrite split_space_app by done.
  rewrite E' at 2. unfold split. by rewrite split_from_app_space.
Qed.

Lemma split_from_no_space (cur w rest : str) :
  no_space U w →
  split_from U cur (w ++ rest) = split_from U (rev w ++ cur) rest.
Proof.
  intros Hw. revert cur. induction Hw as [|c w Hc _ IH]; intros cur; [done|].
  simpl. rewrite Hc, IH. by rewrite <- app_assoc.
Qed.

Lemma split_from_tokens (cur s : str) :
  no_space U cur → Forall (is_token U) (split_from U cur s).
Proof.
  revert cur. induction s as [|c s IH]; intros cur Hcur; simpl.
  - destruct cur as [|a cur]; [constructor|].
    constructor; [|constructor]. split.
    + intros E%(f_equal length). rewrite length_rev in E. done.
    + unfold no_space in *. rewrite Forall_forall in *.
      intros x Hx. rewrite elem_of_rev in Hx. by apply Hcur.
  - destruct (isspace U c) eqn:Hc.
    + destruct cur as [|a cur]; [by apply IH|].
      constructor; [|by apply IH; constructor]. split.
      * intros E%(f_equal length). rewrite length_rev in E. done.
      * unfold no_space in *. rewrite Forall_forall in *.
        intros x Hx. rewrite elem_of_rev in Hx. by apply Hcur.
    + apply IH. by constructor.
Qed.

Lemma elem_of_split_from (cur s w : str) (c : char) :
  w ∈ split_from U cur s → c ∈ w → c ∈ cur ∨ c ∈ s.
Proof.
  revert cur. induction s as [|a s IH]; intros cur; simpl.
  - destruct cur as [|b cur]; [by intros ?%elem_of_nil|].
    intros ->%list_elem_of_singleton Hc. rewrite elem_of_rev in Hc. by left.
  - destruct (isspace U a).
    + destruct cur as [|b cur].
      * intros Hw Hc. destruct (IH _ Hw Hc) as [?|?]; [by left|].
        right. by right.
      * intros [->|Hw]%elem_of_cons Hc.
        -- rewrite elem_of_rev in Hc. by left.
        -- destruct (IH _ Hw Hc) as [?%elem_of_nil|?]; [done|].
           right. by right.
    + intros Hw Hc. destruct (IH _ Hw Hc) as [[->|?]%elem_of_cons|?].
      * right. by left.
      * by left.
      * right. by right.
Qed.

Lemma join_cons_cons (sep w w' : str) (ws : list str) :
  join sep (w :: w' :: ws) = w ++ sep ++ join sep (w' :: ws).
Proof. done. Qed.

(** Splitting the space-joined tokens gives the tokens back. *)
Lemma split_join (ws : list str) :
  isspace U SPACE = true →
  Forall (is_token U) ws → split U (join [SPACE] ws) = ws.
Proof.
  intros Hsp Hws. unfold split.
  induction Hws as [|w ws [Hne Hw] Hws IH]; [done|].
  destruct ws as [|w' ws].
  - simpl. rewrite <- (app_nil_r w) at 1.
    rewrite split_from_no_space by done. simpl. rewrite app_nil_r.
    destruct (rev w) eqn:E.
    + apply (f_equal (@rev _)) in E. rewrite rev_involutive in E. done.
    + by rewrite <- E, rev_involutive.
  - rewrite join_cons_cons, split_from_no_space by done.
    rewrite app_nil_r. simpl. rewrite Hsp.
    destruct (rev w) eqn:E.
    + apply (f_equal (@rev _)) in E. rewrite rev_involutive in E. done.
    + rewrite <- E, rev_involutive. f_equal. apply IH.
Qed.

End Splitting.

(** ** Tokens *)

Section Tokens.

Context (U : unicode_db) (HU : unicode_laws U).

Lemma lower_nil : lower U [] = [].
Proof. apply (lower_fixed U HU). by intros c ?%elem_of_nil. Qed.

(** The tokenizer on a [str], with the final [strip] absorbed by [split]. *)
Lemma preprocess_text_str (s : str) :
  preprocess_text U s
  = split U (sub_space_runs U false (sub_non_word U (lower U s))).
Proof.
  destruct s as [|c s]; simpl.
  - by rewrite lower_nil.
  - apply split_strip.
Qed.

Lemma elem_of_sub_space_runs (in_run : bool) (s : str) (c : char) :
  c ∈ sub_space_runs U in_run s → c = SPACE ∨ c ∈ s.
Proof.
  revert in_run. induction s as [|a s IH]; intros in_run; simpl.
  - by intros ?%elem_of_nil.
  - destruct (isspace U a); [destruct in_run|].
    + intros [?|?]%IH; [by left|right; by right].
    + intros [->|[?|?]%IH]%elem_of_cons; [by left|by left|right; by right].
    + intros [->|[?|?]%IH]%elem_of_cons; [right; by left|by left|right; by right].
Qed.

Lemma elem_of_sub_non_word (s : str) (c : char) :
  c ∈ sub_non_word U s →
  c = SPACE ∨ (c ∈ s ∧ (is_word U c = true ∨ isspace U c = true)).
Proof.
  unfold sub_non_word. intros (a & E & Ha)%list_elem_of_fmap.
  destruct (is_word U a || isspace U a) eqn:Hw; [|by left].
  subst c. right. split; [done|]. by apply orb_true_iff.
Qed.

(** Every token is a non-empty run of lowercase-stable word characters. *)
Lemma preprocess_text_tokens (text : value) :
  Forall (λ w, is_token U w
               ∧ ∀ c, c ∈ w → is_word U c = true ∧ lower U [c] = [c])
         (preprocess_text U text).
Proof.
  destruct text as [| | | |s]; try by constructor.
  rewrite preprocess_text_str.
  set (x := sub_space_runs U false (sub_non_word U (lower U s))).
  pose proof (split_from_tokens U [] x (Forall_nil_2 _)) as Htok.
  fold (split U x) in Htok. rewrite Forall_forall in *.
  intros w Hw. split; [by apply Htok|].
  intros c Hc. destruct (Htok w Hw) as [_ Hns].
  unfold no_space in Hns. rewrite Forall_forall in Hns.
  specialize (Hns c Hc).
  destruct (elem_of_split_from U [] x w c Hw Hc) as [?%elem_of_nil|Hx]; [done|].
  apply elem_of_sub_space_runs in Hx as [->|Hx].
  { by rewrite (isspace_SPACE U HU) in Hns. }
  apply elem_of_sub_non_word in Hx as [->|(Hl & [Hword|Hsp])].
  - by rewrite (isspace_SPACE U HU) in Hns.
  - split; [done|]. by apply (lower_stable U HU s).
  - by rewrite Hsp in Hns.
Qed.

Lemma sub_non_word_id (s : str) :
  (∀ c, c ∈ s → is_word U c = true ∨ isspace U c = true) →
  sub_non_word U s = s.
Proof.
  intros Hs. unfold sub_non_word.
  rewrite <- (map_id s) at 2. apply map_ext_in.
  intros c Hc%list_elem_of_In.
  destruct (Hs c Hc) as [-> | ->]; [done|by rewrite orb_true_r].
Qed.

Lemma sub_space_runs_no_space (in_run : bool) (w rest : str) :
  is_token U w →
  sub_space_runs U in_run (w ++ rest) = w ++ sub_space_runs U false rest.
Proof.
  intros [Hne Hw]. revert in_run.
  induction Hw as [|c w Hc Hw IH]; [done|]. intros in_run. simpl.
  rewrite Hc. f_equal. destruct w as [|c' w]; [done|]. by apply IH.
Qed.

Lemma sub_space_runs_join (in_run : bool) (ws : list str) :
  Forall (is_token U) ws →
  sub_space_runs U in_run (join [SPACE] ws) = join [SPACE] ws.
Proof.
  intros Hws. revert in_run.
  induction Hws as [|w ws Hw Hws IH]; intros in_run; [done|].
  destruct ws as [|w' ws].
  - simpl. rewrite <- (app_nil_r w).
    by rewrite sub_space_runs_no_space.
  - rewrite join_cons_cons, sub_space_runs_no_space by done.
    f_equal. simpl app. cbn [sub_space_runs].
    rewrite (isspace_SPACE U HU). f_equal. apply IH.
Qed.

Lemma elem_of_join (ws : list str) (c : char) :
  c ∈ join [SPACE] ws → c = SPACE ∨ ∃ w, w ∈ ws ∧ c ∈ w.
Proof.
  induction ws as [|w ws IH]; [by intros ?%elem_of_nil|].
  destruct ws as [|w' ws].
  - simpl. intros Hc. right. exists w. split; [by left|done].
  - rewrite join_cons_cons. intros [Hc|[Hc|Hc]%elem_of_app]%elem_of_app.
    + right. exists w. split; [by left|done].
    + apply list_elem_of_singleton in Hc. by left.
    + destruct (IH Hc) as [?|(x & Hx & Hcx)]; [by left|].
      right. exists x. split; [by right|done].
Qed.

End Tokens.

(** C8: tokenizing the space-joined tokens of a text gives the same tokens. *)
Theorem preprocess_text_idempotent (U : unicode_db) (text : value) :
  unicode_laws U →
  preprocess_text U (join [SPACE] (preprocess_text U text))
  = preprocess_text U text.
Proof.
  intros HU. pose proof (preprocess_text_tokens U HU text) as Htok.
  set (ws := preprocess_text U text) in *.
  assert (Forall (is_token U) ws) as Hws.
  { eapply Forall_impl; [exact Htok|]. by intros w [? _]. }
  rewrite Forall_forall in Htok.
  rewrite preprocess_text_str by done.
  assert (lower U (join [SPACE] ws) = join [SPACE] ws) as ->.
  { apply (lower_fixed U HU). intros c [->|(w & Hw & Hc)]%elem_of_join.
    - apply (lower_caseless U HU). left. apply (isspace_SPACE U HU).
    - by apply (Htok w Hw). }
  rewrite sub_non_word_id.
  - rewrite sub_space_runs_join by done.
    apply split_join; [apply (isspace_SPACE U HU)|done].
  - intros c [->|(w & Hw & Hc)]%elem_of_join.
    + right. apply (isspace_SPACE U HU).
    + left. by apply (Htok w Hw).
Qed.

(** The fragment of the tables satisfies the laws: an instance of C8. *)
Lemma preprocess_text_idempotent_witness :
  preprocess_text basic_db
    (join [SPACE] (preprocess_text basic_db (str_of "Hello, WORLD_1!")))
  = preprocess_text basic_db (str_of "Hello, WORLD_1!").
Proof.
  apply (preprocess_text_idempotent basic_db (str_of "Hello, WORLD_1!")).
  exact basic_db_laws.
Defined.

(** ** Sentences *)

Section Sentences.

Context (U : unicode_db).

Lemma strip_non_empty (s : str) (c : char) :
  c ∈ s → isspace U c = false → strip U s ≠ [].
Proof.
  intros Hc Hns E. pose proof (elem_of_strip U s c Hc Hns) as Hin.
  rewrite E in Hin. by apply elem_of_nil in Hin.
Qed.

(** A character outside the terminators and the whitespace ends up in a
    piece that does not strip to the empty string. Inside a run of
    terminators the piece being read is empty. *)
Lemma re_split_terminators_content (in_run : bool) (cur text : str) :
  (in_run = true → cur = []) →
  (∃ c, c ∈ cur ∧ isspace U c = false)
  ∨ (∃ c, c ∈ text ∧ isspace U c = false ∧ is_terminator c = false) →
  Exists (λ piece, strip U piece ≠ [])
         (re_split_terminators in_run cur text).
Proof.
  revert in_run cur. induction text as [|a text IH]; intros in_run cur Hrun; simpl.
  - intros [(c & Hc & Hns)|(c & ?%elem_of_nil & _)]; [|done].
    apply Exists_cons_hd. apply (strip_non_empty _ c); [|done].
    by rewrite elem_of_rev.
  - intros H. destruct (is_terminator a) eqn:Ha.
    + destruct H as [(c & Hc & Hns)|(c & [->|Hc]%elem_of_cons & Hns & Hnt)].
      * destruct in_run.
        -- rewrite Hrun in Hc by done. by apply elem_of_nil in Hc.
        -- apply Exists_cons_hd. apply (strip_non_empty _ c); [|done].
           by rewrite elem_of_rev.
      * congruence.
      * assert (Exists (λ piece, strip U piece ≠ [])
                       (re_split_terminators true [] text)) as Hex.
        { apply IH; [done|]. right. by exists c. }
        destruct in_run; [done|by apply Exists_cons_tl].
    + apply IH; [done|].
      destruct H as [(c & Hc & Hns)|(c & [->|Hc]%elem_of_cons & Hns & Hnt)].
      * left. exists c. split; [by right|done].
      * left. exists a. split; [by left|done].
      * right. by exists c.
Qed.

Lemma calculate_sentence_count_pos (text : str) (c : char) :
  c ∈ text → isspace U c = false → is_terminator c = false →
  1 ≤ calculate_sentence_count U text.
Proof.
  intros Hc Hns Hnt. unfold calculate_sentence_count.
  destruct text as [|a text]; [by apply elem_of_nil in Hc|].
  rewrite length_map.
  assert (Exists (λ piece, strip U piece ≠ [])
                 (re_split_terminators false [] (a :: text))) as Hex.
  { apply re_split_terminators_content; [done|]. right. by exists c. }
  apply Exists_exists in Hex as (piece & Hin & Hne).
  assert (piece ∈ filter (λ s, strip U s ≠ [])
                         (re_split_terminators false [] (a :: text))) as Hf.
  { by apply list_elem_of_filter. }
  destruct (filter _ _); [by apply elem_of_nil in Hf|simpl; lia].
Qed.

Context (HU : unicode_laws U).

Lemma is_terminator_not_word (c : char) :
  is_terminator c = true → is_word U c = false.
Proof.
  intros Hc. unfold is_word.
  rewrite (terminator_not_alnum U HU) by by apply elem_of_terminators.
  revert Hc. unfold is_terminator, FULL_STOP, EXCLAMATION, QUESTION, UNDERSCORE.
  case_ranges; intros; try done; lia.
Qed.

(** A text of whitespace and terminators only has no words. *)
Lemma preprocess_text_punctuation (text : str) :
  (∀ c, c ∈ text → isspace U c = true ∨ is_terminator c = true) →
  preprocess_text U text = [].
Proof.
  intros Htext. rewrite preprocess_text_str by done.
  assert (lower U text = text) as ->.
  { apply (lower_fixed U HU). intros c Hc. apply (lower_caseless U HU).
    destruct (Htext c Hc) as [?|?]; [by left|right].
    by apply elem_of_terminators. }
  apply split_all_space. unfold all_space. rewrite Forall_forall.
  intros c [->|Hc]%elem_of_sub_space_runs; [apply (isspace_SPACE U HU)|].
  apply elem_of_sub_non_word in Hc as [->|(Hc & [Hw|Hs])];
    [apply (isspace_SPACE U HU)| |done].
  destruct (Htext c Hc) as [?|Ht]; [done|].
  apply is_terminator_not_word in Ht. congruence.
Qed.

End Sentences.

(** C9: a text with at least one word has at least one sentence. The test
    [not words or sentences == 0] of [analyze_text_readability] is then
    false, and [len(words) / sentences] divides by a positive number. *)
Theorem words_have_a_sentence (U : unicode_db) (text : str) :
  unicode_laws U →
  preprocess_text U text ≠ [] →
  1 ≤ calculate_sentence_count U text
  ∧ bool_decide (preprocess_text U text = [])
    || (calculate_sentence_count U text =? 0)%nat = false.
Proof.
  intros HU Hwords.
  assert (1 ≤ calculate_sentence_count U text) as Hpos.
  { destruct (decide (Exists (λ c, isspace U c = false
                                   ∧ is_terminator c = false) text))
      as [Hex|Hall].
    - apply Exists_exists in Hex as (c & Hc & Hns & Hnt).
      by apply (calculate_sentence_count_pos U text c).
    - exfalso. apply Hwords. apply preprocess_text_punctuation; [done|].
      intros c Hc. destruct (isspace U c) eqn:Hs; [by left|right].
      destruct (is_terminator c) eqn:Ht; [done|].
      exfalso. apply Hall. apply Exists_exists. by exists c. }
  split; [done|]. rewrite bool_decide_eq_false_2 by done.
  simpl. apply Nat.eqb_neq. lia.
Qed.

(** An instance of C9: a text of four words in two sentences. *)
Lemma words_have_a_sentence_witness :
  let text := str_of "Hi there. Bye!" in
  preprocess_text basic_db text ≠ []
  ∧ 1 ≤ calculate_sentence_count basic_db text.
Proof.
  assert (preprocess_text basic_db (str_of "Hi there. Bye!") ≠ []) as H
    by (vm_compute; discriminate).
  split; [exact H|].
  exact (proj1 (words_have_a_sentence basic_db (str_of "Hi there. Bye!")
                  basic_db_laws H)).
Defined.

(** ** Readability *)

Lemma Qltb_lt (a b : Q) : Qltb a b = true ↔ (a < b)%Q.
Proof.
  unfold Qltb. rewrite negb_true_iff, <- not_true_iff_false, Qle_bool_iff.
  split; [apply Qnot_le_lt|apply Qlt_not_le].
Qed.


(** The value [round(max(0, min(100, x)), 2)] is the number
    [clamp(x, 0, 100)] rounded to 2 decimals, and lies in [[0, 100]]. *)
Lemma readability_score_value (x : Q) :
  let score := round_value (max2 (VInt 0) (min2 (VInt 100) (VFloat x))) 2 in
  ∃ q, num_of score = Some q
       ∧ q = py_round (clamp x 0 100) 2
       ∧ (0 <= q)%Q ∧ (q <= 100)%Q.
Proof.
  unfold clamp, min2, max2, value_ltb, Qltb.
  cbn [num_of default from_option id].
  change (inject_Z 100) with 100%Q. change (inject_Z 0) with 0%Q.
  destruct (Qle_bool 100 x) eqn:H100;
    cbn [negb num_of default from_option id].
  - assert (Qle_bool x 0 = false) as ->.
    { apply not_true_iff_false. intros Hle%Qle_bool_iff.
      apply Qle_bool_iff in H100.
      assert (100 <= 0)%Q as Habs by (eapply Qle_trans; eauto).
      by apply Habs. }
    exists 100%Q. by vm_compute.
  - destruct (Qle_bool x 0) eqn:H0;
      cbn [negb num_of default from_option id round_value].
    + exists 0%Q. by vm_compute.
    + exists (py_round x 2). split; [done|]. split; [done|].
      apply (py_round_bounds x 2 100).
      * apply Qlt_le_weak, Qltb_lt. unfold Qltb. by rewrite H0.
      * change (inject_Z 100) with 100%Q.
        apply Qlt_le_weak, Qltb_lt. unfold Qltb. by rewrite H100.
Qed.

Section Readability.

Context (U : unicode_db).


End Readability.

(** Ten words in three sentences: 3.33 words per sentence, and a score
    clamped to the [int] 100. *)
Example readability_of_short_sentences :
  analyze_text_readability basic_db (str_of "a b c. d e f! g h i j?")
  = {[ "readability_score" := VInt 100;
       "words_per_sentence" := VFloat (333 # 100);
       "sentences" := VInt 3 ]}.
Proof. vm_compute. reflexivity. Qed.

(** The empty text and a text of punctuation only take the early exit. *)
Example readability_of_no_words :
  analyze_text_readability basic_db [] = {[ "readability_score" := VFloat 0 ]}
  ∧ analyze_text_readability basic_db (str_of "?! ...")
    = {[ "readability_score" := VFloat 0 ]}.
Proof. vm_compute. split; reflexivity. Qed.

(** ** Counting and ranking words *)

Section CounterFacts.

Implicit Types (w : str) (ws : list str) (c : list (str * nat)).

Lemma frequency_app w ws1 ws2 :
  frequency w (ws1 ++ ws2) = frequency w ws1 + frequency w ws2.
Proof. unfold frequency. by rewrite filter_app, length_app. Qed.

Lemma frequency_0 w ws : w ∉ ws → frequency w ws = 0.
Proof.
  unfold frequency. induction ws as [|x ws IH]; [done|].
  intros [Hne Hw]%not_elem_of_cons.
  rewrite filter_cons_False by done. by apply IH.
Qed.

Lemma frequency_pos w ws : w ∈ ws → 0 < frequency w ws.
Proof.
  unfold frequency. induction ws as [|x ws IH]; [by intros ?%elem_of_nil|].
  intros [->|Hw]%elem_of_cons.
  - rewrite filter_cons_True by done. simpl. lia.
  - destruct (decide (x = w)).
    + rewrite filter_cons_True by done. simpl. lia.
    + rewrite filter_cons_False by done. by apply IH.
Qed.

Lemma first_occurrences_snoc ws w :
  first_occurrences (ws ++ [w])
  = first_occurrences ws ++ (if decide (w ∈ ws) then [] else [w]).
Proof.
  unfold first_occurrences. rewrite rev_app_distr. simpl.
  destruct (decide_rel elem_of w (rev ws)) as [Hin|Hin];
    rewrite elem_of_rev in Hin.
  - rewrite decide_True by done. by rewrite app_nil_r.
  - by rewrite decide_False by done.
Qed.

Lemma elem_of_first_occurrences ws w : w ∈ first_occurrences ws ↔ w ∈ ws.
Proof.
  unfold first_occurrences.
  by rewrite elem_of_rev, elem_of_remove_dups, elem_of_rev.
Qed.

Lemma NoDup_first_occurrences ws : NoDup (first_occurrences ws).
Proof.
  unfold first_occurrences. apply NoDup_ListNoDup, NoDup_rev, NoDup_ListNoDup.
  apply NoDup_remove_dups.
Qed.

Lemma frequency_snoc w x ws :
  frequency w (ws ++ [x])
  = frequency w ws + (if decide (x = w) then 1 else 0).
Proof.
  rewrite frequency_app. f_equal. unfold frequency.
  destruct (decide (x = w)).
  - by rewrite filter_cons_True.
  - by rewrite filter_cons_False.
Qed.

(** The items of a counter over the keys [ks] with the counts of [ws]. *)
Lemma counter_incr_items w ks ws :
  NoDup ks →
  (w ∉ ks → frequency w ws = 0) →
  counter_incr w (map (λ k, (k, frequency k ws)) ks)
  = map (λ k, (k, frequency k (ws ++ [w])))
        (ks ++ (if decide (w ∈ ks) then [] else [w])).
Proof.
  intros Hnd Hfresh. induction Hnd as [|k ks Hk Hnd IH].
  - rewrite decide_False by apply not_elem_of_nil.
    cbn [map app counter_incr].
    rewrite frequency_snoc, Hfresh by apply not_elem_of_nil.
    by rewrite decide_True.
  - cbn [map counter_incr]. destruct (decide (k = w)) as [->|Hne].
    + rewrite decide_True by by left. rewrite app_nil_r.
      cbn [map]. f_equal.
      * rewrite frequency_snoc, decide_True by done. f_equal. lia.
      * apply map_ext_in. intros x Hx%list_elem_of_In.
        rewrite frequency_snoc, decide_False by (intros ->; done).
        by rewrite Nat.add_0_r.
    + rewrite <- app_comm_cons. cbn [map]. f_equal.
      * rewrite frequency_snoc, decide_False by done.
        by rewrite Nat.add_0_r.
      * rewrite IH.
        -- destruct (decide (w ∈ ks)) as [Hin|Hin].
           ++ by rewrite decide_True by by right.
           ++ rewrite decide_False; [done|].
              intros [?|?]%elem_of_cons; congruence.
        -- intros Hin. apply Hfresh. intros [?|?]%elem_of_cons; congruence.
Qed.

(** A counter lists the distinct words in order of first occurrence, each
    with its frequency. *)
Lemma Counter_items ws :
  Counter ws = map (λ k, (k, frequency k ws)) (first_occurrences ws).
Proof.
  unfold Counter. induction ws as [|w ws IH] using rev_ind; [done|].
  rewrite fold_left_app. simpl. rewrite IH, first_occurrences_snoc.
  rewrite counter_incr_items.
  - f_equal. f_equal. destruct (decide (w ∈ ws)) as [Hin|Hin].
    + by rewrite decide_True by by apply elem_of_first_occurrences.
    + by rewrite decide_False by by rewrite elem_of_first_occurrences.
  - apply NoDup_first_occurrences.
  - rewrite elem_of_first_occurrences. apply frequency_0.
Qed.

Lemma first_index_lt w ws : w ∈ ws → first_index w ws < length ws.
Proof.
  induction ws as [|x ws IH]; [by intros ?%elem_of_nil|]. simpl.
  destruct (decide (x = w)); [lia|].
  intros [?|?]%elem_of_cons; [congruence|]. apply IH in H. lia.
Qed.

Lemma first_index_app_l w ws ws' :
  w ∈ ws → first_index w (ws ++ ws') = first_index w ws.
Proof.
  induction ws as [|x ws IH]; [by intros ?%elem_of_nil|]. simpl.
  destruct (decide (x = w)); [done|].
  intros [?|?]%elem_of_cons; [congruence|]. f_equal. by apply IH.
Qed.

Lemma first_index_fresh w ws :
  w ∉ ws → first_index w (ws ++ [w]) = length ws.
Proof.
  induction ws as [|x ws IH]; simpl.
  - by rewrite decide_True.
  - intros [? ?]%not_elem_of_cons. rewrite decide_False by done.
    f_equal. by apply IH.
Qed.

Lemma StronglySorted_impl {A} (R R' : A → A → Prop) (l : list A) :
  (∀ x y, x ∈ l → y ∈ l → R x y → R' x y) →
  StronglySorted R l → StronglySorted R' l.
Proof.
  intros HR Hl. induction Hl as [|x l Hl IH Hx]; constructor.
  - apply IH. intros a b Ha Hb. apply HR; by right.
  - rewrite Forall_forall in *. intros y Hy.
    apply HR; [by left|by right|by apply Hx].
Qed.

Lemma StronglySorted_snoc {A} (R : A → A → Prop) (l : list A) (x : A) :
  StronglySorted R l → Forall (λ y, R y x) l → StronglySorted R (l ++ [x]).
Proof.
  intros Hl Hx. induction Hl as [|a l Hl IH Ha]; simpl.
  - repeat constructor.
  - apply Forall_cons in Hx as [Hax Hx]. constructor; [by apply IH|].
    apply Forall_app. split; [done|]. by constructor.
Qed.

Lemma StronglySorted_lookup {A} (R : A → A → Prop) (l : list A)
    (i j : nat) (a b : A) :
  StronglySorted R l → i < j → l !! i = Some a → l !! j = Some b → R a b.
Proof.
  intros Hl. revert i j. induction Hl as [|x l Hl IH Hx]; intros i j Hij.
  - by rewrite lookup_nil.
  - destruct j as [|j]; [lia|]. destruct i as [|i]; simpl.
    + intros [= ->] Hb. rewrite Forall_forall in Hx. apply Hx.
      by eapply list_elem_of_lookup_2.
    + apply IH. lia.
Qed.

(** The distinct words come in order of first occurrence. *)
Lemma first_occurrences_sorted ws :
  StronglySorted (λ a b, first_index a ws < first_index b ws)
                 (first_occurrences ws).
Proof.
  induction ws as [|w ws IH] using rev_ind; [constructor|].
  rewrite first_occurrences_snoc.
  assert (StronglySorted
            (λ a b, first_index a (ws ++ [w]) < first_index b (ws ++ [w]))
            (first_occurrences ws)) as Hs.
  { eapply StronglySorted_impl; [|exact IH]. simpl.
    intros x y Hx Hy. rewrite elem_of_first_occurrences in Hx, Hy.
    by rewrite !first_index_app_l. }
  destruct (decide (w ∈ ws)) as [Hin|Hin]; [by rewrite app_nil_r|].
  apply StronglySorted_snoc; [done|]. rewrite Forall_forall.
  intros x Hx. rewrite elem_of_first_occurrences in Hx.
  rewrite first_index_app_l, first_index_fresh by done.
  by apply first_index_lt.
Qed.

Lemma insert_desc_perm (x : str * nat) c : insert_desc x c ≡ₚ x :: c.
Proof.
  induction c as [|y c IH]; [done|]. simpl.
  destruct (x.2 <? y.2)%nat; [|done].
  rewrite IH. apply perm_swap.
Qed.

Lemma sorted_desc_perm c : sorted_desc c ≡ₚ c.
Proof.
  induction c as [|x c IH]; [done|]. simpl.
  by rewrite insert_desc_perm, IH.
Qed.

Lemma insert_desc_sorted ws (x : str * nat) c :
  StronglySorted (ranks_before ws) c →
  Forall (λ y, first_index x.1 ws < first_index y.1 ws) c →
  StronglySorted (ranks_before ws) (insert_desc x c).
Proof.
  intros Hc Hx. induction Hc as [|y c Hc IH Hy]; simpl.
  - repeat constructor.
  - apply Forall_cons in Hx as [Hxy Hx].
    destruct (Nat.ltb_spec x.2 y.2) as [Hlt|Hge].
    + constructor; [by apply IH|].
      rewrite insert_desc_perm. constructor; [by left|done].
    + constructor; [by constructor|].
      rewrite Forall_forall in *. intros z [->|Hz]%elem_of_cons.
      * unfold ranks_before. destruct (decide (x.2 = y.2)); [right|left]; lia.
      * specialize (Hy z Hz). specialize (Hx z Hz).
        unfold ranks_before in *.
        destruct (decide (x.2 = z.2)); [right|left]; lia.
Qed.

(** Sorting a list that is in order of first occurrence ranks it. *)
Lemma sorted_desc_sorted ws c :
  StronglySorted (λ a b, first_index a.1 ws < first_index b.1 ws) c →
  StronglySorted (ranks_before ws) (sorted_desc c).
Proof.
  induction 1 as [|x c Hc IH Hx]; simpl; [constructor|].
  apply insert_desc_sorted; [done|]. by rewrite sorted_desc_perm.
Qed.

Lemma Counter_ranked ws :
  StronglySorted (ranks_before ws) (sorted_desc (Counter ws)).
Proof.
  apply sorted_desc_sorted. rewrite Counter_items.
  pose proof (first_occurrences_sorted ws) as Hs.
  induction Hs as [|k ks Hs IH Hk]; simpl; constructor; [done|].
  rewrite Forall_forall in Hk. rewrite Forall_forall.
  intros y (k' & -> & Hk')%list_elem_of_fmap.
  simpl. by apply Hk.
Qed.

Lemma elem_of_Counter ws w n :
  (w, n) ∈ Counter ws ↔ w ∈ ws ∧ n = frequency w ws.
Proof.
  rewrite Counter_items, list_elem_of_fmap. split.
  - intros (k & [= -> ->] & Hk). by rewrite elem_of_first_occurrences in Hk.
  - intros [Hw ->]. exists w. by rewrite elem_of_first_occurrences.
Qed.

Lemma Counter_keys ws : (Counter ws).*1 = first_occurrences ws.
Proof.
  rewrite Counter_items. induction (first_occurrences ws); [done|].
  simpl. by f_equal.
Qed.

End CounterFacts.

Section MostCommon.

Context (U : unicode_db).

(** C5: [get_most_common_words] returns at most [n] pairs of a word and its
    frequency, in descending order of frequency, words of equal frequency
    in the order they are first met in the text; they are the most frequent
    words. *)
Theorem get_most_common_words_spec (text : str) (n : nat) :
  let words := preprocess_text U text in
  let result := get_most_common_words U text n in
  length result ≤ n
  ∧ (∀ w c, (w, c) ∈ result → w ∈ words ∧ c = frequency w words)
  ∧ (∀ i j a b, i < j → result !! i = Some a → result !! j = Some b →
       b.2 ≤ a.2
       ∧ (a.2 = b.2 → first_index a.1 words < first_index b.1 words))
  ∧ NoDup result.*1
  ∧ (∀ w, w ∈ words →
       w ∈ result.*1
       ∨ (length result = n ∧ ∀ b, b ∈ result → frequency w words ≤ b.2)).
Proof.
  intros words result. subst result. unfold get_most_common_words.
  fold words. destruct words as [|w0 ws0] eqn:Ewords.
  { split; [simpl; lia|]. split; [by intros w c ?%elem_of_nil|].
    split; [by intros i j a b _; rewrite lookup_nil|].
    split; [constructor|]. by intros w ?%elem_of_nil. }
  rewrite <- Ewords. clear Ewords w0 ws0. unfold most_common.
  set (sorted := sorted_desc (Counter words)).
  pose proof (Counter_ranked words) as Hranked. fold sorted in Hranked.
  pose proof (sorted_desc_perm (Counter words)) as Hperm. fold sorted in Hperm.
  split; [|split; [|split; [|split]]].
  - rewrite length_take. lia.
  - intros w c (i & Hi & _)%elem_of_take.
    apply elem_of_Counter. rewrite <- Hperm. by eapply list_elem_of_lookup_2.
  - intros i j a b Hij [Ha _]%lookup_take_Some [Hb _]%lookup_take_Some.
    pose proof (StronglySorted_lookup _ _ _ _ _ _ Hranked Hij Ha Hb) as Hr.
    unfold ranks_before in Hr. lia.
  - rewrite fmap_take. eapply sublist_NoDup; [|apply sublist_take].
    rewrite Hperm, Counter_keys. apply NoDup_first_occurrences.
  - intros w Hw.
    assert ((w, frequency w words) ∈ sorted) as Hin.
    { rewrite Hperm. by apply elem_of_Counter. }
    apply list_elem_of_lookup_1 in Hin as (k & Hk).
    destruct (decide (k < n)) as [Hkn|Hkn].
    + left. apply list_elem_of_fmap. exists (w, frequency w words).
      split; [done|]. apply elem_of_take. by exists k.
    + right. apply lookup_lt_Some in Hk as Hlen. split.
      * rewrite length_take. lia.
      * intros b (i & Hi & Hin)%elem_of_take.
        assert (i < k) as Hik by lia.
        pose proof (StronglySorted_lookup _ _ _ _ _ _ Hranked Hik Hi Hk) as Hr.
        unfold ranks_before in Hr. simpl in Hr. lia.
Qed.

End MostCommon.

(** ** Extrema of a sequence *)

Section Extrema.

Context {A K : Type} (lt : K → K → bool) (key : A → K).

(** [lt] is a strict weak order. *)
Hypothesis lt_irrefl : ∀ a, lt a a = false.
Hypothesis lt_trans : ∀ a b c, lt a b = true → lt b c = true → lt a c = true.
Hypothesis lt_split : ∀ a b c, lt a b = true → lt a c = true ∨ lt c b = true.

Lemma max_by_scan (rest pre : list A) (best : A) (i : nat) :
  pre !! i = Some best →
  (∀ y, y ∈ pre → lt (key best) (key y) = false) →
  (∀ j y, j < i → pre !! j = Some y → lt (key y) (key best) = true) →
  ∃ i', (pre ++ rest) !! i' = Some (max_by lt key best rest)
        ∧ (∀ y, y ∈ pre ++ rest →
                lt (key (max_by lt key best rest)) (key y) = false)
        ∧ (∀ j y, j < i' → (pre ++ rest) !! j = Some y →
                  lt (key y) (key (max_by lt key best rest)) = true).
Proof.
  revert pre best i. induction rest as [|item rest IH]; intros pre best i.
  - intros Hi Hmax Hfirst. exists i. rewrite app_nil_r. by repeat split.
  - intros Hi Hmax Hfirst.
    replace (pre ++ item :: rest) with ((pre ++ [item]) ++ rest)
      by by rewrite <- app_assoc.
    unfold max_by. cbn [fold_left]. fold (max_by lt key).
    destruct (lt (key best) (key item)) eqn:Hlt.
    + apply (IH (pre ++ [item]) item (length pre)).
      * by rewrite lookup_app_r, Nat.sub_diag.
      * intros y [Hy| ->%list_elem_of_singleton]%elem_of_app; [|done].
        destruct (lt (key item) (key y)) eqn:Hy'; [|done].
        rewrite <- (Hmax y Hy). symmetry. by eapply lt_trans.
      * intros j y Hj Hy. rewrite lookup_app_l in Hy by done.
        destruct (lt_split _ _ (key y) Hlt) as [Hby|?]; [|done].
        rewrite Hmax in Hby; [done|]. by eapply list_elem_of_lookup_2.
    + apply (IH (pre ++ [item]) best i).
      * by apply lookup_app_l_Some.
      * by intros y [Hy| ->%list_elem_of_singleton]%elem_of_app; [apply Hmax|].
      * intros j y Hj Hy. apply (Hfirst j y Hj).
        rewrite lookup_app_l in Hy; [done|].
        apply lookup_lt_Some in Hi. lia.
Qed.

(** [max_by] returns the first item whose key no other key exceeds. *)
Lemma max_by_first (first : A) (rest : list A) :
  let best := max_by lt key first rest in
  ∃ i, (first :: rest) !! i = Some best
       ∧ (∀ y, y ∈ first :: rest → lt (key best) (key y) = false)
       ∧ (∀ j y, j < i → (first :: rest) !! j = Some y →
                 lt (key y) (key best) = true).
Proof.
  apply (max_by_scan rest [first] first 0).
  - done.
  - by intros y ->%list_elem_of_singleton.
  - intros j y Hj. lia.
Qed.

End Extrema.







(** The longest word is the first word of maximal length. *)
Lemma find_longest_word_first (U : unicode_db) (text : str) :
  preprocess_text U text ≠ [] →
  ∃ i, preprocess_text U text !! i = Some (find_longest_word U text)
       ∧ (∀ w, w ∈ preprocess_text U text →
               length w ≤ length (find_longest_word U text))
       ∧ (∀ j w, j < i → preprocess_text U text !! j = Some w →
                 length w < length (find_longest_word U text)).
Proof.
  unfold find_longest_word. destruct (preprocess_text U text) as [|w ws]; [done|].
  intros _.
  destruct (max_by_first Nat.ltb (@length char)) with (first := w) (rest := ws)
    as (i & Hi & Hmax & Hfirst).
  - apply Nat.ltb_irrefl.
  - intros a b c. rewrite !Nat.ltb_lt. lia.
  - intros a b c. rewrite !Nat.ltb_lt. lia.
  - exists i. split; [done|]. split.
    + intros y Hy. specialize (Hmax y Hy). apply Nat.ltb_ge in Hmax. lia.
    + intros j y Hj Hy. by apply Nat.ltb_lt, (Hfirst j y).
Qed.

(** ** The corpus aggregation *)






(** ** Enrichment with metadata *)

Section Enrich.

Context (metadata : gmap str record).

Lemma enrich_result_other (heap : store) (result l : loc) :
  l ≠ result → enrich_result metadata heap result !! l = heap !! l.
Proof.
  intros Hne. unfold enrich_result.
  destruct (heap !! result) as [fields|]; [|done].
  destruct (dict_get fields "filename" (VStr [])); try done.
  destruct (metadata !! s); [|done]. by rewrite lookup_insert_ne.
Qed.

Lemma enrich_result_self (heap : store) (result : loc) (fields : record) :
  heap !! result = Some fields →
  enrich_result metadata heap result !! result
  = Some (match metadata_row metadata fields with
          | Some row => dict_update fields row
          | None => fields
          end).
Proof.
  intros Hl. unfold enrich_result, metadata_row. rewrite Hl.
  destruct (dict_get fields "filename" (VStr [])); try done.
  destruct (metadata !! s); [|done]. by rewrite lookup_insert_eq.
Qed.




End Enrich.



(** The metadata row overwrites a metric the record already holds. *)
Example enrich_overwrites_word_count :
  let heap' :=
    (enrich_results_with_metadata [1%positive; 2%positive]
       example_metadata example_heap).2 in
  (heap' !! 1%positive) ≫= (.!! "word_count") = Some (VStr (str_of "four"))
  ∧ (heap' !! 2%positive) ≫= (.!! "word_count") = Some (VInt 7).
Proof. vm_compute. split; reflexivity. Qed.


(** * Further properties of [text_utils.py] *)

Section MoreTokens.

Context (U : unicode_db).

(** Without any assumption on the tables, the tokens are non-empty and
    free of whitespace. *)
Lemma preprocess_text_is_token (text : value) :
  Forall (is_token U) (preprocess_text U text).
Proof.
  destruct text as [| | | |s]; try by constructor.
  destruct s as [|c s]; [by constructor|].
  apply split_from_tokens. constructor.
Qed.

Lemma is_token_length (w : str) : is_token U w → 1 ≤ length w.
Proof. intros [Hne _]. destruct w; [done|simpl; lia]. Qed.

End MoreTokens.

(** X1: every token is a non-empty string of word characters ([\w]), none
    of them whitespace, all of them left unchanged by [str.lower]. *)
Theorem preprocess_text_word_tokens (U : unicode_db) (text : value) :
  unicode_laws U →
  Forall (λ w, w ≠ []
               ∧ Forall (λ c, isspace U c = false ∧ is_word U c = true
                              ∧ lower U [c] = [c]) w)
         (preprocess_text U text).
Proof.
  intros HU. pose proof (preprocess_text_tokens U HU text) as Htok.
  eapply Forall_impl; [exact Htok|]. simpl.
  intros w [[Hne Hns] Hw]. split; [done|].
  unfold no_space in Hns. rewrite Forall_forall in Hns. rewrite Forall_forall.
  intros c Hc. destruct (Hw c Hc). by split; [apply Hns|].
Qed.

(** An instance of X1 on a text with punctuation, capitals and an
    underscore. *)
Lemma preprocess_text_word_tokens_witness :
  Forall (λ w, w ≠ []
               ∧ Forall (λ c, isspace basic_db c = false
                              ∧ is_word basic_db c = true
                              ∧ lower basic_db [c] = [c]) w)
         (preprocess_text basic_db (str_of "Hello, WORLD_1!")).
Proof.
  apply (preprocess_text_word_tokens basic_db (str_of "Hello, WORLD_1!")).
  exact basic_db_laws.
Defined.

(** X2: [find_longest_word] returns the empty string exactly when the text
    has no words; otherwise it returns the first of the words of maximal
    length. *)
Theorem find_longest_word_spec (U : unicode_db) (text : str) :
  (find_longest_word U text = [] ↔ preprocess_text U text = [])
  ∧ (preprocess_text U text ≠ [] →
     ∃ i, preprocess_text U text !! i = Some (find_longest_word U text)
          ∧ (∀ w, w ∈ preprocess_text U text →
                  length w ≤ length (find_longest_word U text))
          ∧ (∀ j w, j < i → preprocess_text U text !! j = Some w →
                    length w < length (find_longest_word U text))).
Proof.
  split; [|apply find_longest_word_first].
  split.
  - intros Hnil. destruct (decide (preprocess_text U text = [])) as [|Hne];
      [done|exfalso].
    destruct (find_longest_word_first U text Hne) as (i & Hi & _).
    pose proof (preprocess_text_is_token U text) as Htok.
    rewrite Forall_forall in Htok.
    destruct (Htok (find_longest_word U text)) as [Hw _];
      [by eapply list_elem_of_lookup_2|]. done.
  - unfold find_longest_word. by intros ->.
Qed.

Section LinesAndSentences.

Context (U : unicode_db).

Lemma lstrip_all_space (s : str) : all_space U s → lstrip U s = [].
Proof. induction 1 as [|c s Hc _ IH]; [done|]. simpl. by rewrite Hc. Qed.

Lemma strip_all_space (s : str) : all_space U s → strip U s = [].
Proof.
  intros Hs. unfold strip, rstrip. by rewrite (lstrip_all_space s).
Qed.

(** A piece that strips to the empty string is made of whitespace. *)
Lemma strip_nil_iff (s : str) : strip U s = [] ↔ all_space U s.
Proof.
  split; [|apply strip_all_space].
  intros Hs. unfold all_space. rewrite Forall_forall. intros c Hc.
  destruct (isspace U c) eqn:Hsp; [done|].
  by destruct (strip_non_empty U s c Hc Hsp).
Qed.

Lemma elem_of_split_sep (sep : char) (cur s piece : str) (c : char) :
  piece ∈ split_sep sep cur s → c ∈ piece →
  c ∈ cur ∨ (c ∈ s ∧ c ≠ sep).
Proof.
  revert cur. induction s as [|a s IH]; intros cur; simpl.
  - intros ->%list_elem_of_singleton Hc. rewrite elem_of_rev in Hc. by left.
  - destruct (N.eqb_spec a sep) as [->|Hne].
    + intros [->|Hp]%elem_of_cons Hc.
      * rewrite elem_of_rev in Hc. by left.
      * destruct (IH _ Hp Hc) as [?%elem_of_nil|[? ?]]; [done|].
        right. split; [by right|done].
    + intros Hp Hc. destruct (IH _ Hp Hc) as [[->|?]%elem_of_cons|[? ?]].
      * right. split; [by left|done].
      * by left.
      * right. split; [by right|done].
Qed.

Lemma split_sep_content (sep : char) (cur s : str) (c : char) :
  c ∈ cur ∨ (c ∈ s ∧ c ≠ sep) →
  ∃ piece, piece ∈ split_sep sep cur s ∧ c ∈ piece.
Proof.
  revert cur. induction s as [|a s IH]; intros cur; simpl.
  - intros [Hc|[?%elem_of_nil _]]; [|done].
    exists (rev cur). split; [by left|by rewrite elem_of_rev].
  - destruct (N.eqb_spec a sep) as [->|Hne].
    + intros [Hc|[[->|Hc]%elem_of_cons Hsep]]; [|done|].
      * exists (rev cur). split; [by left|by rewrite elem_of_rev].
      * destruct (IH [] (or_intror (conj Hc Hsep))) as (p & Hp & Hcp).
        exists p. split; [by right|done].
    + intros H. apply IH.
      destruct H as [Hc|[[->|Hc]%elem_of_cons Hsep]].
      * left. by right.
      * left. by left.
      * by right.
Qed.

Lemma length_split_sep (sep : char) (cur : str) (s : list char) :
  length (split_sep sep cur s)
  = S (length (filter (λ c, c = sep) s)).
Proof.
  revert cur. induction s as [|a s IH]; intros cur; [done|].
  cbn [split_sep]. destruct (N.eqb_spec a sep) as [->|Hne].
  - rewrite filter_cons_True by done. cbn [length]. by rewrite IH.
  - rewrite filter_cons_False by done. by rewrite IH.
Qed.

(** X3: [count_lines] is zero exactly when the text holds nothing but
    whitespace and newlines, and never exceeds the number of newline
    characters plus one. *)
Theorem count_lines_spec (text : str) :
  (count_lines U text = 0
   ↔ ∀ c, c ∈ text → isspace U c = true ∨ c = NEWLINE)
  ∧ count_lines U text ≤ S (length (filter (λ c, c = NEWLINE) text)).
Proof.
  unfold count_lines. destruct text as [|a text].
  { split; [|lia]. split; [by intros _ c ?%elem_of_nil|done]. }
  set (t := a :: text). rewrite length_map. split.
  - split.
    + intros Hlen c Hc. destruct (isspace U c) eqn:Hsp; [by left|right].
      destruct (decide (c = NEWLINE)) as [|Hnl]; [done|exfalso].
      destruct (split_sep_content NEWLINE [] t c) as (p & Hp & Hcp);
        [by right|].
      assert (p ∈ filter (λ line, strip U line ≠ [])
                         (split_sep NEWLINE [] t)) as Hf.
      { apply list_elem_of_filter. split; [|done].
        by apply (strip_non_empty U p c). }
      destruct (filter _ _); [by apply elem_of_nil in Hf|done].
    + intros Hall.
      destruct (filter _ _) as [|p ps] eqn:Ef; [done|exfalso].
      assert (p ∈ filter (λ line, strip U line ≠ [])
                         (split_sep NEWLINE [] t)) as Hf
        by (rewrite Ef; by left).
      apply list_elem_of_filter in Hf as [Hne Hp]. apply Hne.
      apply strip_all_space. unfold all_space. rewrite Forall_forall.
      intros c Hc.
      destruct (elem_of_split_sep NEWLINE [] t p c Hp Hc)
        as [?%elem_of_nil|[Hct Hnl]]; [done|].
      by destruct (Hall c Hct).
  - etrans; [apply length_filter|]. by rewrite length_split_sep.
Qed.

Lemma elem_of_re_split_terminators (in_run : bool) (cur s piece : str)
    (c : char) :
  piece ∈ re_split_terminators in_run cur s → c ∈ piece →
  c ∈ cur ∨ (c ∈ s ∧ is_terminator c = false).
Proof.
  revert in_run cur. induction s as [|a s IH]; intros in_run cur; simpl.
  - intros ->%list_elem_of_singleton Hc. rewrite elem_of_rev in Hc. by left.
  - destruct (is_terminator a) eqn:Ha.
    + destruct in_run.
      * intros Hp Hc.
        destruct (IH _ _ Hp Hc) as [?%elem_of_nil|[? ?]]; [done|].
        right. split; [by right|done].
      * intros [->|Hp]%elem_of_cons Hc.
        -- rewrite elem_of_rev in Hc. by left.
        -- destruct (IH _ _ Hp Hc) as [?%elem_of_nil|[? ?]]; [done|].
           right. split; [by right|done].
    + intros Hp Hc. destruct (IH _ _ Hp Hc) as [[->|?]%elem_of_cons|[? ?]].
      * right. split; [by left|done].
      * by left.
      * right. split; [by right|done].
Qed.

(** X4: [calculate_sentence_count] is zero exactly when the text holds
    nothing but whitespace and the terminators [.], [!] and [?]. *)
Theorem calculate_sentence_count_zero (text : str) :
  calculate_sentence_count U text = 0
  ↔ ∀ c, c ∈ text → isspace U c = true ∨ is_terminator c = true.
Proof.
  split.
  - intros Hzero c Hc. destruct (isspace U c) eqn:Hsp; [by left|right].
    destruct (is_terminator c) eqn:Ht; [done|exfalso].
    pose proof (calculate_sentence_count_pos U text c Hc Hsp Ht). lia.
  - intros Hall. unfold calculate_sentence_count.
    destruct text as [|a text]; [done|]. set (t := a :: text) in *.
    rewrite length_map.
    destruct (filter _ _) as [|p ps] eqn:Ef; [done|exfalso].
    assert (p ∈ filter (λ s, strip U s ≠ [])
                       (re_split_terminators false [] t)) as Hf
      by (rewrite Ef; by left).
    apply list_elem_of_filter in Hf as [Hne Hp]. apply Hne.
    apply strip_all_space. unfold all_space. rewrite Forall_forall.
    intros c Hc.
    destruct (elem_of_re_split_terminators false [] t p c Hp Hc)
      as [?%elem_of_nil|[Hct Hnt]]; [done|].
    destruct (Hall c Hct); congruence.
Qed.

End LinesAndSentences.

(** ** Rounding between integers *)

Lemma round_half_even_between (q : Q) (a b : Z) :
  (inject_Z a <= q)%Q → (q <= inject_Z b)%Q →
  (a ≤ round_half_even q ≤ b)%Z.
Proof.
  intros Ha Hb. unfold round_half_even.
  assert (a ≤ Qfloor q)%Z as Hfa.
  { rewrite <- (Qfloor_Z a). by apply Qfloor_resp_le. }
  assert (Qfloor q ≤ b)%Z as Hfb.
  { rewrite <- (Qfloor_Z b). by apply Qfloor_resp_le. }
  assert ((1 # 2 <= q - inject_Z (Qfloor q))%Q → (Qfloor q + 1 ≤ b)%Z) as Hup.
  { intros Hhalf. destruct (Z.eq_dec (Qfloor q) b) as [E|]; [|lia].
    exfalso. rewrite E in Hhalf. lra. }
  destruct (Qcompare_spec (q - inject_Z (Qfloor q)) (1 # 2)) as [E|L|G].
  - destruct (Z.even (Qfloor q)); [lia|].
    split; [lia|]. apply Hup. rewrite E. apply Qle_refl.
  - lia.
  - split; [lia|]. apply Hup. by apply Qlt_le_weak.
Qed.

(** Rounding keeps a number between the integers that enclose it. *)
Lemma py_round_between (x : Q) (ndigits : nat) (a b : Z) :
  (inject_Z a <= x)%Q → (x <= inject_Z b)%Q →
  (inject_Z a <= py_round x ndigits)%Q ∧ (py_round x ndigits <= inject_Z b)%Q.
Proof.
  intros Ha Hb. unfold py_round.
  set (p := (10 ^ Pos.of_nat ndigits)%positive).
  destruct (round_half_even_between (x * (Z.pos p # 1))
              (a * Z.pos p) (b * Z.pos p)) as [Hlo Hhi].
  - apply Qle_trans with (inject_Z a * (Z.pos p # 1))%Q.
    + unfold Qle. simpl. lia.
    + apply Qmult_le_compat_r; [done|]. by unfold Qle.
  - apply Qle_trans with (inject_Z b * (Z.pos p # 1))%Q.
    + apply Qmult_le_compat_r; [done|]. by unfold Qle.
    + unfold Qle. simpl. lia.
  - rewrite Qred_correct. unfold Qle. simpl. lia.
Qed.

Lemma py_round_integer (x : Q) (ndigits : nat) (a : Z) :
  (x == inject_Z a)%Q → (py_round x ndigits == inject_Z a)%Q.
Proof.
  intros Hx. destruct (py_round_between x ndigits a a) as [Hlo Hhi].
  - rewrite Hx. apply Qle_refl.
  - rewrite Hx. apply Qle_refl.
  - by apply Qle_antisym.
Qed.

Lemma true_div_between (n d a b : nat) :
  0 < d → a * d ≤ n → n ≤ b * d →
  (inject_Z (Z.of_nat a) <= true_div n d)%Q
  ∧ (true_div n d <= inject_Z (Z.of_nat b))%Q.
Proof. intros Hd Ha Hb. unfold true_div, Qle. simpl. nia. Qed.

Lemma sum_list_between (l : list nat) (a b : nat) :
  Forall (λ n, a ≤ n ≤ b) l →
  a * length l ≤ sum_list l ∧ sum_list l ≤ b * length l.
Proof. induction 1 as [|n l Hn _ IH]; simpl; lia. Qed.

Lemma filter_Forall_id {A} (P : A → Prop) `{∀ x, Decision (P x)}
    (l : list A) :
  Forall P l → filter P l = l.
Proof.
  induction 1 as [|x l Hx _ IH]; [done|].
  rewrite filter_cons_True by done. by rewrite IH.
Qed.

Lemma filter_Forall_nil {A} (P : A → Prop) `{∀ x, Decision (P x)}
    (l : list A) :
  Forall (λ x, ¬ P x) l → filter P l = [].
Proof.
  induction 1 as [|x l Hx _ IH]; [done|].
  by rewrite filter_cons_False.
Qed.

Section Averages.

Context (U : unicode_db).

(** X5: the average word length of a text with words lies between 1 and
    the length of its longest word; it is [0.0] exactly when the text has
    no words. *)
Theorem average_word_length_bounds (text : str) :
  ((average_word_length U text == 0)%Q ↔ preprocess_text U text = [])
  ∧ (preprocess_text U text ≠ [] →
     (1 <= average_word_length U text)%Q
     ∧ (average_word_length U text
        <= inject_Z (Z.of_nat (length (find_longest_word U text))))%Q).
Proof.
  assert (preprocess_text U text ≠ [] →
          (1 <= average_word_length U text)%Q
          ∧ (average_word_length U text
             <= inject_Z (Z.of_nat (length (find_longest_word U text))))%Q)
    as Hbounds.
  { intros Hne.
    destruct (find_longest_word_first U text Hne) as (_ & _ & Hmax & _).
    pose proof (preprocess_text_is_token U text) as Htok.
    unfold average_word_length.
    destruct (preprocess_text U text) as [|w ws] eqn:E; [done|].
    set (words := w :: ws) in *.
    destruct (sum_list_between (map length words) 1
                (length (find_longest_word U text))) as [Hlo Hhi].
    { apply Forall_fmap. rewrite Forall_forall in *. intros x Hx. simpl.
      split; [by apply (is_token_length U), Htok|by apply Hmax]. }
    rewrite length_map in Hlo, Hhi.
    destruct (true_div_between (sum_list (map length words)) (length words)
                1 (length (find_longest_word U text))) as [H1 H2];
      [simpl; lia|exact Hlo|exact Hhi|].
    by apply (py_round_between _ 2 1). }
  split; [|done]. split.
  - intros Hzero.
    destruct (decide (preprocess_text U text = [])) as [|Hne]; [done|].
    destruct (Hbounds Hne) as [Hone _]. rewrite Hzero in Hone.
    by destruct Hone.
  - unfold average_word_length. by intros ->.
Qed.

(** X6: the type-token ratio of a text with words is [1.0] when no word
    occurs twice; the lexical density is [1.0] when every word has more
    than 3 characters and [0.0] when none has. *)
Theorem ttr_and_lexical_density_extremes (text : str) :
  preprocess_text U text ≠ [] →
  (NoDup (preprocess_text U text) → (calculate_ttr U text == 1)%Q)
  ∧ (Forall (λ w, 3 < length w) (preprocess_text U text) →
     (calculate_lexical_density U text == 1)%Q)
  ∧ (Forall (λ w, length w ≤ 3) (preprocess_text U text) →
     (calculate_lexical_density U text == 0)%Q).
Proof.
  intros Hne. split; [|split].
  - intros Hnd. unfold calculate_ttr, count_unique_words, count_words.
    rewrite size_list_to_set by done.
    destruct (preprocess_text U text) as [|w ws]; [done|].
    cbn [length Nat.eqb].
    apply (py_round_integer _ 4 1). unfold true_div, Qeq. simpl. lia.
  - intros Hall. unfold calculate_lexical_density.
    destruct (preprocess_text U text) as [|w ws]; [done|].
    rewrite filter_Forall_id by done.
    apply (py_round_integer _ 4 1). unfold true_div, Qeq. simpl. lia.
  - intros Hnone. unfold calculate_lexical_density.
    destruct (preprocess_text U text) as [|w ws]; [done|].
    rewrite filter_Forall_nil
      by (eapply Forall_impl; [exact Hnone|]; simpl; lia).
    apply (py_round_integer _ 4 0). unfold true_div, Qeq. simpl. lia.
Qed.

End Averages.

(** An instance of X6: three distinct words, all longer than 3
    characters. *)
Lemma ttr_and_lexical_density_extremes_witness :
  let text := str_of "green river stones" in
  preprocess_text basic_db text ≠ []
  ∧ (calculate_ttr basic_db text == 1)%Q
  ∧ (calculate_lexical_density basic_db text == 1)%Q.
Proof.
  assert (preprocess_text basic_db (str_of "green river stones") ≠ []) as Hne
    by (vm_compute; discriminate).
  destruct (ttr_and_lexical_density_extremes basic_db
              (str_of "green river stones") Hne) as (Httr & Hld & _).
  split; [exact Hne|]. split.
  - apply Httr. refine (bool_decide_unpack _ _). vm_compute. exact I.
  - apply Hld. refine (bool_decide_unpack _ _). vm_compute. exact I.
Defined.

(** ** The whole frequency table *)

Lemma sum_counter_incr (w : str) (c : list (str * nat)) :
  sum_list (counter_incr w c).*2 = S (sum_list c.*2).
Proof.
  induction c as [|[k v] c IH]; [done|]. cbn [counter_incr].
  destruct (decide (k = w)); rewrite !fmap_cons.
  - simpl. lia.
  - change (sum_list ((k, v).2 :: (counter_incr w c).*2))
      with (v + sum_list (counter_incr w c).*2).
    rewrite IH. simpl. lia.
Qed.

Lemma sum_Counter (ws : list str) : sum_list (Counter ws).*2 = length ws.
Proof.
  unfold Counter. induction ws as [|w ws IH] using rev_ind; [done|].
  rewrite fold_left_app, length_app. cbn [fold_left].
  rewrite sum_counter_incr, IH. simpl. lia.
Qed.

Lemma sum_insert_desc (x : str * nat) (c : list (str * nat)) :
  sum_list (insert_desc x c).*2 = x.2 + sum_list c.*2.
Proof.
  induction c as [|y c IH]; [done|]. cbn [insert_desc].
  destruct (x.2 <? y.2)%nat; rewrite !fmap_cons; [|done].
  change (sum_list (y.2 :: (insert_desc x c).*2))
    with (y.2 + sum_list (insert_desc x c).*2).
  rewrite IH. simpl. lia.
Qed.

Lemma sum_sorted_desc (c : list (str * nat)) :
  sum_list (sorted_desc c).*2 = sum_list c.*2.
Proof.
  induction c as [|x c IH]; [done|]. cbn [sorted_desc foldr].
  fold (sorted_desc c). by rewrite sum_insert_desc, IH.
Qed.

Lemma length_Counter (ws : list str) :
  length (Counter ws) = size (list_to_set ws : gset str).
Proof.
  rewrite <- (length_fmap fst), Counter_keys.
  rewrite <- (size_list_to_set (C:=gset str))
    by apply NoDup_first_occurrences.
  f_equal. apply set_eq. intros w.
  by rewrite !elem_of_list_to_set, elem_of_first_occurrences.
Qed.

(** X7: asked for at least as many words as the text has distinct words,
    [get_most_common_words] returns one pair per distinct word, and the
    counts add up to the number of words. *)
Theorem get_most_common_words_all (U : unicode_db) (text : str) (n : nat) :
  count_unique_words U text ≤ n →
  length (get_most_common_words U text n) = count_unique_words U text
  ∧ sum_list (get_most_common_words U text n).*2 = count_words U text
  ∧ (∀ w, w ∈ preprocess_text U text →
          w ∈ (get_most_common_words U text n).*1).
Proof.
  unfold count_unique_words, count_words, get_most_common_words.
  intros Hn.
  destruct (preprocess_text U text) as [|w0 ws0] eqn:E.
  { split; [done|]. split; [done|]. by intros w ?%elem_of_nil. }
  rewrite <- E in *. clear E w0 ws0.
  set (words := preprocess_text U text) in *.
  unfold most_common.
  assert (length (sorted_desc (Counter words))
          = size (list_to_set words : gset str)) as Hlen.
  { by rewrite sorted_desc_perm, length_Counter. }
  rewrite take_ge by lia.
  split; [done|]. split.
  - by rewrite sum_sorted_desc, sum_Counter.
  - intros w Hw. apply list_elem_of_fmap. exists (w, frequency w words).
    split; [done|]. rewrite sorted_desc_perm. by apply elem_of_Counter.
Qed.

(** An instance of X7: four words, two of them distinct, ten asked for. *)
Lemma get_most_common_words_all_witness :
  let text := str_of "Hello hello WORLD! Hello?" in
  count_unique_words basic_db text ≤ 10
  ∧ length (get_most_common_words basic_db text 10)
    = count_unique_words basic_db text
  ∧ sum_list (get_most_common_words basic_db text 10).*2
    = count_words basic_db text.
Proof.
  assert (count_unique_words basic_db (str_of "Hello hello WORLD! Hello?")
          ≤ 10) as Hn by (vm_compute; lia).
  destruct (get_most_common_words_all basic_db
              (str_of "Hello hello WORLD! Hello?") 10 Hn) as (Hlen & Hsum & _).
  split; [exact Hn|]. split; [exact Hlen|exact Hsum].
Defined.

(** ** The extremes of the readability score *)

Lemma readability_score_extremes (x : Q) :
  ((100 <= x)%Q →
   round_value (max2 (VInt 0) (min2 (VInt 100) (VFloat x))) 2 = VInt 100)
  ∧ ((x <= 0)%Q →
     round_value (max2 (VInt 0) (min2 (VInt 100) (VFloat x))) 2 = VInt 0).
Proof.
  unfold min2, max2, value_ltb, Qltb.
  cbn [num_of default from_option id].
  change (inject_Z 100) with 100%Q. change (inject_Z 0) with 0%Q.
  split.
  - intros H%Qle_bool_iff. rewrite H.
    cbn [negb num_of default from_option id]. done.
  - intros H. assert (Qle_bool 100 x = false) as ->.
    { apply not_true_iff_false. intros H'%Qle_bool_iff. lra. }
    apply Qle_bool_iff in H.
    cbn [negb num_of default from_option id]. by rewrite H.
Qed.

Lemma true_div_le (n d k : nat) :
  0 < d → n ≤ k * d → (true_div n d <= inject_Z (Z.of_nat k))%Q.
Proof. intros Hd Hn. unfold true_div, Qle. simpl. nia. Qed.

Lemma true_div_ge (n d k : nat) :
  0 < d → k * d ≤ n → (inject_Z (Z.of_nat k) <= true_div n d)%Q.
Proof. intros Hd Hn. unfold true_div, Qle. simpl. nia. Qed.

(** X8: a text with words and sentences that averages at most 10 words
    per sentence scores 100, and one that averages 60 words or more scores
    0. *)
Theorem readability_score_saturates (U : unicode_db) (text : str) :
  preprocess_text U text ≠ [] →
  calculate_sentence_count U text ≠ 0 →
  (count_words U text ≤ 10 * calculate_sentence_count U text →
   analyze_text_readability U text !! "readability_score" = Some (VInt 100))
  ∧ (60 * calculate_sentence_count U text ≤ count_words U text →
     analyze_text_readability U text !! "readability_score" = Some (VInt 0)).
Proof.
  intros Hw Hs. unfold analyze_text_readability, count_words.
  destruct text as [|a text]; [done|].
  rewrite bool_decide_eq_false_2 by done. cbn [orb].
  destruct (Nat.eqb_spec (calculate_sentence_count U (a :: text)) 0);
    [done|].
  rewrite !lookup_insert_eq.
  set (words := length (preprocess_text U (VStr (a :: text)))).
  set (sentences := calculate_sentence_count U (a :: text)) in *.
  destruct (readability_score_extremes
              (100 - (true_div words sentences - 10) * 2)) as [Hhi Hlo].
  split.
  - intros Hle. rewrite Hhi; [done|].
    assert (true_div words sentences <= inject_Z (Z.of_nat 10))%Q as Hd
      by (apply true_div_le; lia).
    change (inject_Z (Z.of_nat 10)) with 10%Q in Hd. lra.
  - intros Hge. rewrite Hlo; [done|].
    assert (inject_Z (Z.of_nat 60) <= true_div words sentences)%Q as Hd
      by (apply true_div_ge; lia).
    change (inject_Z (Z.of_nat 60)) with 60%Q in Hd. lra.
Qed.

(** An instance of X8: ten words in three sentences. *)
Lemma readability_score_saturates_witness :
  let text := str_of "a b c. d e f! g h i j?" in
  preprocess_text basic_db text ≠ []
  ∧ calculate_sentence_count basic_db text ≠ 0
  ∧ count_words basic_db text ≤ 10 * calculate_sentence_count basic_db text
  ∧ analyze_text_readability basic_db text !! "readability_score"
    = Some (VInt 100).
Proof.
  assert (preprocess_text basic_db (str_of "a b c. d e f! g h i j?") ≠ [])
    as Hw by (vm_compute; discriminate).
  assert (calculate_sentence_count basic_db (str_of "a b c. d e f! g h i j?")
          ≠ 0) as Hs by (vm_compute; discriminate).
  assert (count_words basic_db (str_of "a b c. d e f! g h i j?")
          ≤ 10 * calculate_sentence_count basic_db
                   (str_of "a b c. d e f! g h i j?")) as Hle
    by (vm_compute; lia).
  split; [exact Hw|]. split; [exact Hs|]. split; [exact Hle|].
  exact (proj1 (readability_score_saturates basic_db
                  (str_of "a b c. d e f! g h i j?") Hw Hs) Hle).
Defined.

(** * Further properties of [file_utils.py] and [main.py] *)

(** ** The order of strings and sorting *)

Lemma str_leb_refl (a : str) : str_leb a a = true.
Proof.
  induction a as [|x a IH]; [done|]. simpl.
  by rewrite N.ltb_irrefl, N.eqb_refl.
Qed.

Lemma str_leb_total (a b : str) : str_leb a b = true ∨ str_leb b a = true.
Proof.
  revert b. induction a as [|x a IH]; intros [|y b]; simpl; auto.
  destruct (N.ltb_spec x y), (N.ltb_spec y x); auto; try lia.
  assert (x = y) as -> by lia. rewrite N.eqb_refl. apply IH.
Qed.

Lemma str_leb_trans (a b c : str) :
  str_leb a b = true → str_leb b c = true → str_leb a c = true.
Proof.
  revert b c. induction a as [|x a IH]; intros [|y b] [|z c]; simpl; try done.
  destruct (N.ltb_spec x y), (N.eqb_spec x y), (N.ltb_spec y z),
    (N.eqb_spec y z), (N.ltb_spec x z), (N.eqb_spec x z);
    intros Hab Hbc; try done; try lia.
  by apply (IH b c).
Qed.

Lemma str_leb_antisym (a b : str) :
  str_leb a b = true → str_leb b a = true → a = b.
Proof.
  revert b. induction a as [|x a IH]; intros [|y b]; simpl; try done.
  destruct (N.ltb_spec x y), (N.ltb_spec y x), (N.eqb_spec x y),
    (N.eqb_spec y x); intros Hab Hba; try done; try lia.
  f_equal; [done|]. by apply IH.
Qed.

Lemma str_of_inj (a b : string) : str_of a = str_of b → a = b.
Proof.
  unfold str_of. intros H.
  rewrite <- (String.string_of_list_ascii_of_string a),
          <- (String.string_of_list_ascii_of_string b).
  f_equal. revert H.
  generalize (String.list_ascii_of_string a) (String.list_ascii_of_string b).
  induction l as [|x l IH]; intros [|y l']; simpl; try done.
  intros [= Hxy Hl]. f_equal; [|by apply IH].
  rewrite <- (Ascii.ascii_N_embedding x), <- (Ascii.ascii_N_embedding y).
  by rewrite Hxy.
Qed.

Section Sorting.

Context {A : Type} (leb : A → A → bool).

Hypothesis leb_total : ∀ a b, leb a b = true ∨ leb b a = true.
Hypothesis leb_trans : ∀ a b c, leb a b = true → leb b c = true →
                                leb a c = true.

Lemma insert_sorted_perm (x : A) (l : list A) : insert_sorted leb x l ≡ₚ x :: l.
Proof.
  induction l as [|y l IH]; [done|]. simpl.
  destruct (leb x y); [done|]. rewrite IH. apply perm_swap.
Qed.

Lemma py_sorted_perm (l : list A) : py_sorted leb l ≡ₚ l.
Proof.
  induction l as [|x l IH]; [done|]. simpl.
  by rewrite insert_sorted_perm, IH.
Qed.

Lemma insert_sorted_sorted (x : A) (l : list A) :
  StronglySorted (λ a b, leb a b = true) l →
  StronglySorted (λ a b, leb a b = true) (insert_sorted leb x l).
Proof.
  induction 1 as [|y l Hl IH Hy]; simpl; [repeat constructor|].
  destruct (leb x y) eqn:Hxy.
  - constructor; [by constructor|]. constructor; [done|].
    eapply Forall_impl; [exact Hy|]. simpl. intros z Hz. by eapply leb_trans.
  - constructor; [done|]. rewrite insert_sorted_perm. constructor; [|done].
    destruct (leb_total x y); congruence.
Qed.

Lemma py_sorted_sorted (l : list A) :
  StronglySorted (λ a b, leb a b = true) (py_sorted leb l).
Proof.
  induction l as [|x l IH]; simpl; [constructor|].
  by apply insert_sorted_sorted.
Qed.

Hypothesis leb_antisym : ∀ a b, leb a b = true → leb b a = true → a = b.

(** Two sorted lists with the same items are equal. *)
Lemma sorted_perm_eq (l1 l2 : list A) :
  StronglySorted (λ a b, leb a b = true) l1 →
  StronglySorted (λ a b, leb a b = true) l2 →
  l1 ≡ₚ l2 → l1 = l2.
Proof.
  apply StronglySorted_unique_strong. intros a b _ _. apply leb_antisym.
Qed.

(** Sorting a sorted list changes nothing. *)
Lemma py_sorted_id (l : list A) :
  StronglySorted (λ a b, leb a b = true) l → py_sorted leb l = l.
Proof.
  intros Hl. apply sorted_perm_eq; [apply py_sorted_sorted|done|].
  apply py_sorted_perm.
Qed.

End Sorting.

Lemma key_leb_total (a b : string) : key_leb a b = true ∨ key_leb b a = true.
Proof. apply str_leb_total. Qed.

Lemma key_leb_trans (a b c : string) :
  key_leb a b = true → key_leb b c = true → key_leb a c = true.
Proof. apply str_leb_trans. Qed.

Lemma key_leb_antisym (a b : string) :
  key_leb a b = true → key_leb b a = true → a = b.
Proof. intros Hab Hba. by apply str_of_inj, str_leb_antisym. Qed.

(** ** Listing and analysing the corpus *)

Section Corpus.

Context (fs : filesystem) (U : unicode_db).

(** The files the loop of [get_files_in_folder] keeps. *)
Lemma get_files_loop (folder_path : str) (keep : str → bool)
    (files items : list str) :
  foldl (λ files item,
           if keep item then files ++ [fs_join fs folder_path item]
           else files) files items
  = files ++ map (fs_join fs folder_path)
                 (filter (λ item, keep item = true) items).
Proof.
  revert files. induction items as [|item items IH]; intros files; simpl.
  - by rewrite app_nil_r.
  - rewrite IH. destruct (keep item) eqn:Hk.
    + rewrite filter_cons_True by done. simpl. by rewrite <- app_assoc.
    + by rewrite filter_cons_False by congruence.
Qed.

Lemma get_files_in_folder_sorted (folder_path : str)
    (extension : option str) (files : list str) :
  get_files_in_folder fs folder_path extension = Some files →
  StronglySorted (λ a b, str_leb a b = true) files.
Proof.
  unfold get_files_in_folder.
  destruct (fs_exists fs folder_path); [|done].
  destruct (fs_isdir fs folder_path); [|done].
  destruct (fs_listdir fs folder_path) as [items|]; [|done].
  intros [= <-].
  apply py_sorted_sorted; [apply str_leb_total|apply str_leb_trans].
Qed.

(** X9: [get_files_in_folder] returns [None] exactly when the folder is
    missing, is not a directory or cannot be listed. Otherwise it returns,
    in ascending order, the joined paths of the entries that are regular
    files and, when a non-empty extension is given, end with it. *)
Theorem get_files_in_folder_spec (folder_path : str)
    (extension : option str) :
  (get_files_in_folder fs folder_path extension = None
   ↔ fs_exists fs folder_path = false ∨ fs_isdir fs folder_path = false
     ∨ fs_listdir fs folder_path = None)
  ∧ (∀ files, get_files_in_folder fs folder_path extension = Some files →
       StronglySorted (λ a b, str_leb a b = true) files
       ∧ ∃ items, fs_listdir fs folder_path = Some items
           ∧ ∀ path, path ∈ files ↔
               ∃ item, item ∈ items ∧ path = fs_join fs folder_path item
                 ∧ fs_isfile fs path = true
                 ∧ (∀ ext, extension = Some ext → ext ≠ [] →
                           ext `suffix_of` item)).
Proof.
  unfold get_files_in_folder.
  destruct (fs_exists fs folder_path); cbn [negb];
    [|split; [by split; auto|done]].
  destruct (fs_isdir fs folder_path); cbn [negb];
    [|split; [by split; auto|done]].
  destruct (fs_listdir fs folder_path) as [items|];
    [|split; [by split; auto|done]].
  split; [split; [done|by intros [?|[?|?]]]|].
  intros files [= <-]. split.
  { apply py_sorted_sorted; [apply str_leb_total|apply str_leb_trans]. }
  exists items. split; [done|]. intros path.
  rewrite (py_sorted_perm str_leb).
  destruct extension as [[|e ext]|].
  - rewrite (get_files_loop folder_path
               (λ item, fs_isfile fs (fs_join fs folder_path item))).
    rewrite app_nil_l, list_elem_of_fmap. split.
    + intros (item & -> & [Hf Hi]%list_elem_of_filter).
      exists item. repeat split; try done. by intros ext [= <-].
    + intros (item & Hi & -> & Hf & _). exists item. split; [done|].
      by apply list_elem_of_filter.
  - rewrite (get_files_loop folder_path
               (λ item, fs_isfile fs (fs_join fs folder_path item)
                        && endswith item (e :: ext))).
    rewrite app_nil_l, list_elem_of_fmap. split.
    + intros (item & -> & [Hk Hi]%list_elem_of_filter).
      apply andb_true_iff in Hk as [Hf He].
      exists item. repeat split; try done.
      intros ext' [= <-] _. by apply bool_decide_eq_true_1 in He.
    + intros (item & Hi & -> & Hf & He). exists item. split; [done|].
      apply list_elem_of_filter. split; [|done].
      apply andb_true_iff. split; [done|].
      apply bool_decide_eq_true_2. by apply He.
  - rewrite (get_files_loop folder_path
               (λ item, fs_isfile fs (fs_join fs folder_path item))).
    rewrite app_nil_l, list_elem_of_fmap. split.
    + intros (item & -> & [Hf Hi]%list_elem_of_filter).
      exists item. repeat split; try done.
    + intros (item & Hi & -> & Hf & _). exists item. split; [done|].
      by apply list_elem_of_filter.
Qed.

(** A readable file gives a non-empty record, an unreadable one the empty
    record. *)
Lemma analyze_single_text_empty (filepath : str) (filename : option str) :
  analyze_single_text fs U filepath filename = ∅
  ↔ read_text_file fs filepath = None.
Proof.
  unfold analyze_single_text.
  destruct (read_text_file fs filepath) as [content|]; [|done].
  split; [|done]. intros H. by apply insert_non_empty in H.
Qed.

Lemma analyze_corpus_loop (results : list record) (paths : list str) :
  foldl (λ results filepath,
           let filename := fs_basename fs filepath in
           let result :=
             analyze_single_text fs U filepath (Some filename) in
           if decide (result = ∅) then results else results ++ [result])
        results paths
  = results
    ++ map (λ filepath, analyze_single_text fs U filepath
                          (Some (fs_basename fs filepath)))
           (filter (λ filepath, is_Some (read_text_file fs filepath)) paths).
Proof.
  revert results. induction paths as [|p paths IH]; intros results; simpl.
  - by rewrite app_nil_r.
  - rewrite IH. destruct (decide _) as [Hempty|Hne].
    + apply analyze_single_text_empty in Hempty.
      rewrite filter_cons_False; [done|].
      rewrite Hempty. by intros [? ?].
    + rewrite filter_cons_True.
      * simpl. by rewrite <- app_assoc.
      * destruct (read_text_file fs p) eqn:E; [done|].
        exfalso. apply Hne. by apply analyze_single_text_empty.
Qed.

(** X10: [analyze_corpus] returns one record per readable [.txt] file of
    the folder, in the ascending order of the paths; files that cannot be
    read are skipped, and a folder that cannot be listed gives no record. *)
Theorem analyze_corpus_spec (corpus_folder : str) :
  analyze_corpus fs U corpus_folder
  = match get_files_in_folder fs corpus_folder (Some (str_of ".txt")) with
    | Some text_files =>
        map (λ filepath, analyze_single_text fs U filepath
                           (Some (fs_basename fs filepath)))
            (filter (λ filepath, is_Some (read_text_file fs filepath))
                    text_files)
    | None => []
    end.
Proof.
  unfold analyze_corpus.
  destruct (get_files_in_folder fs corpus_folder (Some (str_of ".txt")))
    as [[|p files]|] eqn:Hfiles; [done| |done].
  apply get_files_in_folder_sorted in Hfiles as Hsorted.
  rewrite py_sorted_id;
    [|apply str_leb_total|apply str_leb_trans|apply str_leb_antisym|done].
  exact (analyze_corpus_loop [] (p :: files)).
Qed.

End Corpus.

(** ** The record of a document *)

Section DocumentRecord.

Context (fs : filesystem) (U : unicode_db).

Lemma analyze_text_readability_cases (content : str) :
  (early_exit U content = true
   ∧ analyze_text_readability U content = {[ "readability_score" := VFloat 0 ]})
  ∨ (early_exit U content = false
     ∧ ∃ score wps sentences,
         analyze_text_readability U content
         = <[ "readability_score" := score ]>
           (<[ "words_per_sentence" := VFloat wps ]>
            {[ "sentences" := VInt sentences ]})
         ∧ ∃ q, num_of score = Some q).
Proof.
  unfold early_exit, analyze_text_readability.
  destruct content as [|a content]; [by left|].
  destruct (bool_decide _ || _) eqn:E; [by left|right].
  split; [done|]. eexists _, _, _. split; [done|].
  destruct (readability_score_value
    (100 - (true_div (length (preprocess_text U (VStr (a :: content))))
              (calculate_sentence_count U (a :: content)) - 10) * 2))
    as (q & Hq & _).
  by exists q.
Qed.

Lemma analyze_text_readability_keys (content : str) (k : string) :
  is_Some (analyze_text_readability U content !! k) →
  k = "readability_score" ∨ k = "words_per_sentence" ∨ k = "sentences".
Proof.
  destruct (analyze_text_readability_cases content)
    as [[_ ->]|[_ (score & wps & s & -> & _)]].
  - intros [v [-> _]%lookup_singleton_Some]. by left.
  - intros [v Hv]. apply lookup_insert_Some in Hv as [[<- _]|[_ Hv]];
      [by left|].
    apply lookup_insert_Some in Hv as [[<- _]|[_ Hv]]; [right; by left|].
    apply lookup_singleton_Some in Hv as [<- _]. right. by right.
Qed.

End DocumentRecord.

Section DocumentRecordFields.

Context (fs : filesystem) (U : unicode_db).

Ltac lookup_field :=
  repeat first
    [ rewrite lookup_insert_eq
    | rewrite lookup_singleton_eq
    | rewrite lookup_insert_ne by done ].

(** A metric survives the update with the readability fields and the
    insertion of [top_words]. *)
Lemma lookup_metric (base readability : record) (top : value) (k : string) :
  k ≠ "top_words" → readability !! k = None →
  (<[ "top_words" := top ]> (dict_update base readability)) !! k = base !! k.
Proof.
  intros Hk Hr. rewrite lookup_insert_ne by done.
  unfold dict_update. by rewrite lookup_union_r.
Qed.

Lemma readability_lacks (content : str) (k : string) :
  k ≠ "readability_score" → k ≠ "words_per_sentence" → k ≠ "sentences" →
  analyze_text_readability U content !! k = None.
Proof.
  intros H1 H2 H3.
  destruct (analyze_text_readability U content !! k) eqn:E; [|done].
  destruct (analyze_text_readability_keys U content k) as [?|[?|?]]; done.
Qed.

(** X11: a file that cannot be read gives the empty record. A readable
    file gives a record that holds the nine metrics computed from its
    content, the fields of the readability estimate and [top_words], and
    nothing else; [words_per_sentence] and [sentences] are present exactly
    when the estimate does not take its early exit; the fields the report
    adds up are numbers. *)
Theorem analyze_single_text_record (filepath : str) (filename : option str) :
  let r := analyze_single_text fs U filepath filename in
  (read_text_file fs filepath = None → r = ∅)
  ∧ (∀ content, read_text_file fs filepath = Some content →
       r !! "filename"
       = Some (VStr (default (fs_basename fs filepath) filename))
       ∧ r !! "word_count" = Some (VInt (Z.of_nat (count_words U content)))
       ∧ r !! "unique_words"
         = Some (VInt (Z.of_nat (count_unique_words U content)))
       ∧ r !! "ttr" = Some (VFloat (calculate_ttr U content))
       ∧ r !! "line_count" = Some (VInt (Z.of_nat (count_lines U content)))
       ∧ r !! "avg_word_length"
         = Some (VFloat (average_word_length U content))
       ∧ r !! "longest_word" = Some (VStr (find_longest_word U content))
       ∧ r !! "lexical_density"
         = Some (VFloat (calculate_lexical_density U content))
       ∧ is_Some (r !! "file_size") ∧ is_Some (r !! "top_words")
       ∧ (∀ k v, analyze_text_readability U content !! k = Some v →
                 r !! k = Some v)
       ∧ dom r = list_to_set metric_keys
                 ∪ (if early_exit U content then ∅
                    else {[ "words_per_sentence"; "sentences" ]})
       ∧ numeric_record r).
Proof.
  intros r. subst r. unfold analyze_single_text.
  destruct (read_text_file fs filepath) as [content'|]; [|done].
  split; [done|]. intros content [= ->].
  set (top := VStr _).
  do 9 (split;
        [rewrite lookup_metric by (try done; by apply readability_lacks);
         lookup_field; by destruct filename|]).
  split; [by rewrite lookup_insert_eq|].
  split.
  { intros k v Hk. assert (k ≠ "top_words") as Hne.
    { intros ->. rewrite readability_lacks in Hk; done. }
    rewrite lookup_insert_ne by done. unfold dict_update.
    by apply lookup_union_Some_l. }
  split.
  - unfold dict_update. rewrite dom_insert_L, dom_union_L.
    rewrite !dom_insert_L, dom_singleton_L.
    unfold metric_keys. rewrite !list_to_set_cons, list_to_set_nil.
    destruct (analyze_text_readability_cases U content)
      as [[-> ->]|[-> (score & wps & s & -> & _)]].
    + rewrite dom_singleton_L. set_solver.
    + rewrite !dom_insert_L, dom_singleton_L. set_solver.
  - intros key Hkey. unfold get_num, dict_get.
    repeat (apply elem_of_cons in Hkey as [->|Hkey]);
      [..|by apply elem_of_nil in Hkey];
      rewrite lookup_metric by (try done; by apply readability_lacks);
      lookup_field; done.
Qed.

End DocumentRecordFields.

(** ** Loading the metadata *)

Section Metadata.

Context (fs : filesystem).

Lemma load_metadata_loop (data : list csv_row) (filename : str) :
  foldl (λ metadata item,
           match item !! "filename" with
           | Some (Some ((_ :: _) as filename)) =>
               <[filename := row_record item]> metadata
           | _ => metadata
           end) (∅ : gmap str record) data !! filename
  = match filename with
    | [] => None
    | _ => row_record <$> last (rows_of filename data)
    end.
Proof.
  induction data as [|item data IH] using rev_ind.
  - by destruct filename.
  - rewrite foldl_app. cbn [foldl]. unfold rows_of in *.
    rewrite filter_app.
    destruct (item !! "filename") as [[[|c f]|]|] eqn:E.
    + rewrite IH. destruct filename as [|c f]; [done|].
      rewrite filter_cons_False, filter_nil, app_nil_r; [done|].
      intros He. by generalize (eq_trans (eq_sym E) He).
    + destruct (decide (c :: f = filename)) as [<-|Hne].
      * rewrite lookup_insert_eq, filter_cons_True by done.
        by rewrite filter_nil, last_snoc.
      * rewrite lookup_insert_ne by done. rewrite IH.
        rewrite filter_cons_False, filter_nil, app_nil_r; [done|].
        intros He. by injection (eq_trans (eq_sym E) He) as <-.
    + rewrite IH. rewrite filter_cons_False, filter_nil, app_nil_r; [done|].
      intros He. by generalize (eq_trans (eq_sym E) He).
    + rewrite IH. rewrite filter_cons_False, filter_nil, app_nil_r; [done|].
      intros He. by generalize (eq_trans (eq_sym E) He).
Qed.

(** X12: [load_metadata] returns the empty mapping when the file is missing
    or cannot be read as CSV. Otherwise it keeps, for every non-empty
    filename, the last row of the file that names it, and drops the rows
    whose filename is missing or empty. Every row it keeps names its own
    key. *)
Theorem load_metadata_spec (metadata_path : str) :
  let metadata := load_metadata fs metadata_path in
  (fs_exists fs metadata_path = false ∨ read_csv_file fs metadata_path = None →
   metadata = ∅)
  ∧ (∀ data, fs_exists fs metadata_path = true →
       read_csv_file fs metadata_path = Some data →
       metadata !! [] = None
       ∧ ∀ filename, filename ≠ [] →
           metadata !! filename = row_record <$> last (rows_of filename data))
  ∧ consistent_metadata metadata.
Proof.
  intros metadata. subst metadata. unfold load_metadata.
  destruct (fs_exists fs metadata_path);
    [|split; [done|]; split; [done|]; by intros f row ?].
  destruct (read_csv_file fs metadata_path) as [data|];
    [|split; [done|]; split; [done|]; by intros f row ?].
  split; [by intros [?|?]|]. split.
  - intros data' _ [= <-]. split; [by rewrite load_metadata_loop|].
    intros filename Hne. rewrite load_metadata_loop. by destruct filename.
  - intros filename row. rewrite load_metadata_loop.
    destruct filename as [|c f]; [done|].
    destruct (last (rows_of (c :: f) data)) as [item|] eqn:Hlast; [|done].
    intros [= <-]. apply last_Some in Hlast as [l' Hl'].
    assert (item ∈ rows_of (c :: f) data) as Hin.
    { rewrite Hl'. apply elem_of_app. right. by left. }
    apply list_elem_of_filter in Hin as [Hname _].
    unfold row_record. by rewrite lookup_fmap, Hname.
Qed.

End Metadata.

(** ** Enrichment with metadata whose rows name their own key *)

Section ConsistentEnrich.

Context (metadata : gmap str record).

Hypothesis Hconsistent : consistent_metadata metadata.

Lemma metadata_row_enriched (fields : record) :
  metadata_row metadata (enriched metadata fields)
  = metadata_row metadata fields.
Proof.
  unfold enriched. destruct (metadata_row metadata fields) as [row|] eqn:E;
    [|done].
  unfold metadata_row in *.
  unfold dict_get in E. destruct (fields !! "filename") as [v|] eqn:Ef.
  - destruct v as [| | | |f]; try done.
    unfold dict_get, dict_update. rewrite lookup_union.
    rewrite (Hconsistent f row E). by rewrite Ef.
  - unfold dict_get, dict_update. rewrite lookup_union.
    by rewrite (Hconsistent [] row E), Ef.
Qed.

Lemma enriched_idemp (fields : record) :
  enriched metadata (enriched metadata fields) = enriched metadata fields.
Proof.
  unfold enriched at 1. rewrite metadata_row_enriched.
  unfold enriched. destruct (metadata_row metadata fields) as [row|]; [|done].
  unfold dict_update. by rewrite (assoc_L (∪)), (idemp_L (∪) row).
Qed.

Lemma enrich_result_lookup (heap : store) (result l : loc) :
  enrich_result metadata heap result !! l
  = if decide (l = result) then enriched metadata <$> heap !! l
    else heap !! l.
Proof.
  destruct (decide (l = result)) as [->|Hne].
  - destruct (heap !! result) as [fields|] eqn:E.
    + by rewrite (enrich_result_self metadata heap result fields E).
    + unfold enrich_result. by rewrite E.
  - by apply enrich_result_other.
Qed.

Lemma foldl_enrich_result_lookup (results : list loc) (heap : store)
    (l : loc) :
  foldl (enrich_result metadata) heap results !! l
  = if decide (l ∈ results) then enriched metadata <$> heap !! l
    else heap !! l.
Proof.
  revert heap. induction results as [|r results IH]; intros heap;
    [done|].
  cbn [foldl]. rewrite IH, enrich_result_lookup.
  destruct (decide (l ∈ results)) as [Hin|Hin],
    (decide (l = r)) as [->|Hne],
    (decide (_ ∈ _ :: _)) as [Hc|Hc]; try done;
    try (exfalso; apply Hc, elem_of_cons; by auto);
    try (by apply elem_of_cons in Hc as [?|?]).
  destruct (heap !! r) as [fields|]; [|done]. simpl.
  by rewrite enriched_idemp.
Qed.

End ConsistentEnrich.

(** X13: with metadata whose rows name their own key, as [load_metadata]
    builds it, the effect of [enrich_results_with_metadata] does not depend
    on a record being listed once: every listed record is enriched from the
    row of its filename, every other object is left alone, and enriching a
    second time changes nothing. *)
Theorem enrich_results_with_consistent_metadata
    (results : list loc) (metadata : gmap str record) (heap : store) :
  consistent_metadata metadata →
  let heap' := (enrich_results_with_metadata results metadata heap).2 in
  (∀ l, heap' !! l
        = if decide (l ∈ results) then enriched metadata <$> heap !! l
          else heap !! l)
  ∧ (enrich_results_with_metadata results metadata heap').2 = heap'.
Proof.
  intros Hc heap'.
  assert (∀ h l, (enrich_results_with_metadata results metadata h).2 !! l
                 = if decide (l ∈ results) then enriched metadata <$> h !! l
                   else h !! l) as Hlookup.
  { intros h l. unfold enrich_results_with_metadata.
    destruct (decide (metadata = ∅)) as [->|Hne]; cbn [snd].
    - destruct (decide (l ∈ results)); [|done].
      destruct (h !! l) as [fields|]; [|done]. simpl. f_equal.
      unfold enriched, metadata_row.
      destruct (dict_get fields "filename" (VStr [])); try done.
    - by apply foldl_enrich_result_lookup. }
  split; [apply Hlookup|].
  apply map_eq. intros l. rewrite Hlookup. subst heap'. rewrite Hlookup.
  destruct (decide (l ∈ results)); [|done].
  destruct (heap !! l) as [fields|]; [|done]. simpl.
  by rewrite enriched_idemp.
Qed.

Lemma example_metadata_consistent : consistent_metadata example_metadata.
Proof.
  intros filename row Hrow. unfold example_metadata in Hrow.
  apply lookup_singleton_Some in Hrow as [<- <-]. vm_compute. reflexivity.
Qed.

(** An instance of X13: the first record of the example listed twice. *)
Lemma enrich_results_with_consistent_metadata_witness :
  consistent_metadata example_metadata
  ∧ (enrich_results_with_metadata [1%positive; 1%positive] example_metadata
       (enrich_results_with_metadata [1%positive; 1%positive]
          example_metadata example_heap).2).2
    = (enrich_results_with_metadata [1%positive; 1%positive]
         example_metadata example_heap).2.
Proof.
  split; [exact example_metadata_consistent|].
  exact (proj2 (enrich_results_with_consistent_metadata
                  [1%positive; 1%positive] example_metadata example_heap
                  example_metadata_consistent)).
Defined.
